(** * Consistent-hash ring, rebalance planner and artifact rebalancer

    A shallow embedding of [SRC/consistent_hash_ring.py], [SRC/rebalance.py],
    [SRC/artifact_placement.py], [SRC/cache_cluster.py] and of the router and
    shard store of [SRC/vector_shard_router.py], with the properties of the
    ring, of the planner and of the adapters stated and proved over it.

    Conventions of the embedding:
    - a Python [str] is modelled by the byte string ([string]) of its UTF-8
      encoding, a surrogate code point (U+D800..U+DFFF), which a [str] may
      hold and UTF-8 refuses, being written as the three bytes the
      [surrogatepass] handler gives it; [s.encode("utf-8")] is then the
      identity on a [str] without surrogate and raises [UnicodeEncodeError]
      on the others ([str.encode]). The ids and keys of the specification
      are UTF-8 strings: the operations of the ring are defined over those,
      and [add_node], for which it matters which calls raise, also over
      every [str] ([add_node_any_str]);
    - Python integers are [Z]; list indices and [range] counters are [nat];
    - a method that mutates [self] takes the object state and returns the new
      one; a method that may raise returns a [result];
    - [xxhash.xxh3_64_intdigest] is a C extension outside the repository: the
      ring is defined in a section over an arbitrary [h64]. *)

From Stdlib Require Import ZArith Lia Ascii String.
From stdpp Require Import base option list gmap sets strings pretty sorting.

(** ** Python runtime pieces the sources rely on *)

Inductive exn :=
| ValueError
| TypeError
| AttributeError
| IndexError
| ZeroDivisionError
| UnicodeEncodeError.

(** Outcome of running a piece of code: a value, a raised exception, or
    [OutOfFuel] when a [while] loop is still running after the given number
    of iterations. *)
Inductive result (A : Type) :=
| Ok (a : A)
| Raise (e : exn)
| OutOfFuel.
Arguments Ok {A} a.
Arguments Raise {A} e.
Arguments OutOfFuel {A}.

#[global] Instance result_ret : MRet result := λ A a, Ok a.
#[global] Instance result_bind : MBind result := λ A B k m,
  match m with
  | Ok a => k a
  | Raise e => Raise e
  | OutOfFuel => OutOfFuel
  end.

#[global] Instance exn_eq_dec : EqDecision exn.
Proof. solve_decision. Defined.

Module str.

(** The bytes [c d] open a surrogate code point: U+D800..U+DFFF are the
    three-byte sequences [ED A0..BF 80..BF]; the lead byte [ED] followed by
    [80..9F] is a code point of U+D000..U+D7FF, and [ED] is never a
    continuation byte. *)
Definition surrogate_at (c d : ascii) : bool :=
  Ascii.eqb c "237" && (160 <=? nat_of_ascii d) && (nat_of_ascii d <=? 191).

(** Whether the [str] holds a surrogate code point. *)
Fixpoint has_surrogate (s : string) : bool :=
  match s with
  | String c (String d _ as s') => surrogate_at c d || has_surrogate s'
  | _ => false
  end.

(** [s.encode("utf-8")]: the strict UTF-8 codec raises on a surrogate
    (surrogates not allowed). *)
Definition encode (s : string) : result string :=
  if has_surrogate s then Raise UnicodeEncodeError else Ok s.

(** [s.isascii()] *)
Fixpoint isascii (s : string) : bool :=
  match s with
  | EmptyString => true
  | String c s' => (nat_of_ascii c <? 128) && isascii s'
  end.

(** The one-character [str] ['\ud800'], a lone high surrogate. *)
Definition lone_surrogate : string :=
  String "237" (String "160" (String "128" EmptyString)).

End str.

(** A concrete 64-bit hash (FNV-1a, the seed folded into the offset basis),
    used only to evaluate the model on examples. *)
Definition fnv1a_64 (data : string) (seed : Z) : Z :=
  fold_left
    (λ h c, (Z.lxor h (Z.of_nat (nat_of_ascii c)) * 1099511628211) `mod` 2 ^ 64)%Z
    (list_ascii_of_string data)
    (Z.lxor 14695981039346656037 seed `mod` 2 ^ 64)%Z.

Module bisect.

(** [bisect.bisect_right(a, x)]: the loop of Lib/bisect.py,
    [while lo < hi: mid = (lo + hi) // 2; if x < a[mid]: hi = mid else: lo = mid + 1].
    The loop runs at most [hi - lo] times; the fuel given by the callers
    below is [len(a)], which is never exhausted. *)
Fixpoint bisect_right_loop (fuel : nat) (a : list Z) (x : Z) (lo hi : nat) : nat :=
  match fuel with
  | 0 => lo
  | S fuel' =>
      if lo <? hi then
        let mid := (lo + hi) `div` 2 in
        if (x <? a !!! mid)%Z
        then bisect_right_loop fuel' a x lo mid
        else bisect_right_loop fuel' a x (mid + 1) hi
      else lo
  end.

Definition bisect_right (a : list Z) (x : Z) : nat :=
  bisect_right_loop (length a) a x 0 (length a).

(** [bisect.bisect] is an alias of [bisect_right]. *)
Definition bisect := bisect_right.

(** [bisect.bisect_left(a, x)]:
    [while lo < hi: mid = (lo + hi) // 2; if a[mid] < x: lo = mid + 1 else: hi = mid]. *)
Fixpoint bisect_left_loop (fuel : nat) (a : list Z) (x : Z) (lo hi : nat) : nat :=
  match fuel with
  | 0 => lo
  | S fuel' =>
      if lo <? hi then
        let mid := (lo + hi) `div` 2 in
        if (a !!! mid <? x)%Z
        then bisect_left_loop fuel' a x (mid + 1) hi
        else bisect_left_loop fuel' a x lo mid
      else lo
  end.

Definition bisect_left (a : list Z) (x : Z) : nat :=
  bisect_left_loop (length a) a x 0 (length a).

End bisect.

Module pylist.

(** [l.insert(i, x)] for [i >= 0]: an index past the end appends. *)
Definition insert {A} (i : nat) (x : A) (l : list A) : list A :=
  take i l ++ x :: drop i l.

(** [sorted(l, key=key)]: Python's sort is stable; here as the stable
    insertion sort (an element goes in front of the first element whose
    key is not smaller). *)
Fixpoint insort {A} (key : A → Z) (e : A) (l : list A) : list A :=
  match l with
  | [] => [e]
  | x :: l' => if (key e <=? key x)%Z then e :: l else x :: insort key e l'
  end.

Definition sorted {A} (key : A → Z) (l : list A) : list A :=
  foldr (insort key) [] l.

End pylist.

(** ** [consistent_hash_ring.py] *)

Module Node.
(** [@dataclass(frozen=True) class Node]: no validation of any field. *)
Record t := mk {
  id : string;
  weight : Z;
  zone : option string;
  labels : option (gmap string string)
}.
End Node.

(** [threading.RLock()] *)
Inductive RLock := mkRLock.

(** The instance attributes of a [ConsistentHasher], in the order in which
    [__init__] creates them. *)
Record ConsistentHasher := mkRing {
  _seed : Z;
  _vn_per_weight : Z;
  _lock : RLock;
  _ring : list (Z * Node.t);
  _sorted_tokens : list Z;
  _nodes : gmap string Node.t
}.

(** ** [cache_cluster.py]: [InMemoryCacheNode] *)

(** The Python floats of the cache node (expiry timestamps), with the
    operations the node applies to them. The value of [time.time()] is read
    by the caller and passed to the model as [now]. *)
Class PyFloat := {
  pyfloat : Type;
  float_add_int : pyfloat → Z → pyfloat;  (* [x + n] for an int [n] *)
  float_lt : pyfloat → pyfloat → bool;    (* [x < y] *)
  float_truth : pyfloat → bool;           (* [bool(x)] *)
  float_inf : pyfloat                     (* [float("inf")] *)
}.

(** Integer timestamps extended with infinity: an instance used only to
    evaluate the model on examples. *)
#[global] Instance example_float : PyFloat := {|
  pyfloat := option Z;
  float_add_int := λ x n, (λ t, t + n)%Z <$> x;
  float_lt := λ x y,
    match x, y with
    | Some a, Some b => (a <? b)%Z
    | Some _, None => true
    | None, _ => false
    end;
  float_truth := λ x, match x with Some 0%Z => false | _ => true end;
  float_inf := None
|}.

Module OrderedDict.
Section ordered_dict.
Context {V : Type}.

(** A [collections.OrderedDict] from [str] keys: its items from the oldest
    to the most recent position. *)
Fixpoint get (k : string) (d : list (string * V)) : option V :=
  match d with
  | [] => None
  | (k', v) :: d' => if decide (k' = k) then Some v else get k d'
  end.

(** [d[k] = v]: an existing key keeps its position, a new one goes last. *)
Fixpoint set_item (k : string) (v : V) (d : list (string * V)) : list (string * V) :=
  match d with
  | [] => [(k, v)]
  | (k', v') :: d' =>
      if decide (k' = k) then (k, v) :: d' else (k', v') :: set_item k v d'
  end.

(** [d.pop(k, None)] *)
Definition pop (k : string) (d : list (string * V)) : list (string * V) :=
  filter (λ kv, kv.1 ≠ k) d.

(** [d.move_to_end(k, last=True)]; [None] stands for the [KeyError] of a
    missing key. *)
Definition move_to_end (k : string) (d : list (string * V))
  : option (list (string * V)) :=
  match get k d with
  | Some v => Some (pop k d ++ [(k, v)])
  | None => None
  end.

End ordered_dict.
End OrderedDict.

Module cache.

(** How a method of the node ends: it returns, or a [KeyError] escapes. *)
Inductive outcome (A : Type) :=
| Returns (a : A)
| RaisesKeyError.
Arguments Returns {A} a.
Arguments RaisesKeyError {A}.

Section node.
Context `{PyFloat} {V : Type}.

(** The state of an [InMemoryCacheNode]; a stored value is [None] or an
    object ([option V]). *)
Record InMemoryCacheNode := mkNode {
  node_id : string;
  _store : list (string * (pyfloat * option V));
  _capacity : Z
}.

Definition with_store (n : InMemoryCacheNode) (d : list (string * (pyfloat * option V)))
  : InMemoryCacheNode :=
  {| node_id := node_id n; _store := d; _capacity := _capacity n |}.

(** [_evict_if_needed]: [while len(self._store) > self._capacity:
    self._store.popitem(last=False)]; [popitem] on an empty dict raises
    [KeyError]. The result is the store left behind and the outcome. *)
Fixpoint _evict_if_needed (capacity : Z) (d : list (string * (pyfloat * option V)))
  : list (string * (pyfloat * option V)) * outcome unit :=
  match d with
  | [] => if (capacity <? 0)%Z then ([], RaisesKeyError) else ([], Returns ())
  | _ :: d' =>
      if (capacity <? Z.of_nat (length d))%Z then _evict_if_needed capacity d'
      else (d, Returns ())
  end.

(** [exp_ts and exp_ts < now]: whether an entry has expired at [now]. *)
Definition expired (exp_ts now : pyfloat) : bool :=
  (float_truth exp_ts && float_lt exp_ts now)%bool.

(** [get(k)], with [now] the value of [time.time()]. *)
Definition get (n : InMemoryCacheNode) (k : string) (now : pyfloat)
  : InMemoryCacheNode * outcome (option V) :=
  match OrderedDict.get k (_store n) with
  | None => (n, Returns None)
  | Some (exp_ts, val) =>
      if expired exp_ts now
      then (with_store n (OrderedDict.pop k (_store n)), Returns None)
      else
        match OrderedDict.move_to_end k (_store n) with
        | Some d => (with_store n d, Returns val)
        | None => (n, RaisesKeyError)
        end
  end.

(** The expiry [set] computes:
    [time.time() + ttl_sec if ttl_sec > 0 else float("inf")]. *)
Definition expiry (now : pyfloat) (ttl_sec : Z) : pyfloat :=
  if (0 <? ttl_sec)%Z then float_add_int now ttl_sec else float_inf.

(** [set(k, v, ttl_sec)], with [now] the value of [time.time()]. *)
Definition set (n : InMemoryCacheNode) (k : string) (v : option V) (ttl_sec : Z)
    (now : pyfloat) : InMemoryCacheNode * outcome unit :=
  let exp_ts := expiry now ttl_sec in
  let d1 := OrderedDict.set_item k (exp_ts, v) (_store n) in
  match OrderedDict.move_to_end k d1 with
  | None => (with_store n d1, RaisesKeyError)
  | Some d2 =>
      let de := _evict_if_needed (_capacity n) d2 in
      (with_store n de.1, de.2)
  end.

End node.
End cache.

(** Example nodes: integer values, timestamps from [example_float]. *)
Definition node_empty (capacity : Z)
  : cache.InMemoryCacheNode (H := example_float) (V := Z) :=
  cache.mkNode "cache-a" [] capacity.

Definition node_ab : cache.InMemoryCacheNode (H := example_float) (V := Z) :=
  cache.mkNode "cache-a"
    [("a", (Some 100%Z, Some 1%Z)); ("b", (Some 100%Z, Some 2%Z))] 2.

Section model.

(** [h64(data, seed) = xxhash.xxh3_64_intdigest(data, seed=seed)] *)
Variable h64 : string → Z → Z.

Definition key_hash (key : string) (seed : Z) : Z := h64 key seed.

(** [ConsistentHasher.__init__] *)
Definition init (virtual_nodes_per_weight seed : Z) : ConsistentHasher :=
  {| _seed := seed;
     _vn_per_weight := Z.max 1 virtual_nodes_per_weight;
     _lock := mkRLock;
     _ring := [];
     _sorted_tokens := [];
     _nodes := ∅ |}.

Definition _vn_count (r : ConsistentHasher) (node : Node.t) : Z :=
  (_vn_per_weight r * Z.max 1 (Node.weight node))%Z.

(** [h64(f"{node_id}#{replica_idx}".encode("utf-8"), seed=self._seed)], for
    a [node_id] that UTF-8 encodes. *)
Definition _token_for_vn (r : ConsistentHasher) (node_id : string) (replica_idx : nat) : Z :=
  h64 (node_id +:+ "#" +:+ pretty replica_idx) (_seed r).

Definition _insert_token (r : ConsistentHasher) (token : Z) (node : Node.t)
  : ConsistentHasher :=
  let idx := bisect.bisect_left (_sorted_tokens r) token in
  {| _seed := _seed r;
     _vn_per_weight := _vn_per_weight r;
     _lock := _lock r;
     _ring := pylist.insert idx (token, node) (_ring r);
     _sorted_tokens := pylist.insert idx token (_sorted_tokens r);
     _nodes := _nodes r |}.

(** [self._nodes[node.id] = node] *)
Definition set_node (r : ConsistentHasher) (node : Node.t) : ConsistentHasher :=
  {| _seed := _seed r;
     _vn_per_weight := _vn_per_weight r;
     _lock := _lock r;
     _ring := _ring r;
     _sorted_tokens := _sorted_tokens r;
     _nodes := <[Node.id node := node]> (_nodes r) |}.

(** The body of [for i in range(vn)] in [add_node], folded over the
    indices. *)
Definition insert_vnodes (node : Node.t) (idxs : list nat) (r : ConsistentHasher)
  : ConsistentHasher :=
  foldl (λ r i, _insert_token r (_token_for_vn r (Node.id node) i) node) r idxs.

(** [add_node], for a [node_id] that UTF-8 encodes: the state after the
    call and its outcome. *)
Definition add_node (r : ConsistentHasher) (node_id : string) (weight : Z)
    (zone : option string) : ConsistentHasher * result unit :=
  let node := Node.mk node_id weight zone None in
  if decide (is_Some (_nodes r !! Node.id node)) then (r, Raise ValueError)
  else
    let r1 := set_node r node in
    let vn := _vn_count r1 node in
    (insert_vnodes node (seq 0 (Z.to_nat vn)) r1, Ok ()).

(** [_token_for_vn] for every [str]: the [encode] of the formatted name
    raises when the id holds a surrogate. *)
Definition _token_for_vn_any_str (r : ConsistentHasher) (node_id : string)
    (replica_idx : nat) : result Z :=
  str.encode (node_id +:+ "#" +:+ pretty replica_idx)
    ≫= λ data : string, Ok (h64 data (_seed r)).

(** The loop [for i in range(vn)] of [add_node] for every [str]: an
    exception of [_token_for_vn] leaves the loop with the state reached so
    far. *)
Fixpoint insert_vnodes_any_str (node : Node.t) (idxs : list nat) (r : ConsistentHasher)
  : ConsistentHasher * result unit :=
  match idxs with
  | [] => (r, Ok ())
  | i :: idxs' =>
      match _token_for_vn_any_str r (Node.id node) i with
      | Ok token => insert_vnodes_any_str node idxs' (_insert_token r token node)
      | Raise e => (r, Raise e)
      | OutOfFuel => (r, OutOfFuel)
      end
  end.

(** [add_node] for every [str]: the duplicate test, then
    [self._nodes[node.id] = node], then the loop. *)
Definition add_node_any_str (r : ConsistentHasher) (node_id : string) (weight : Z)
    (zone : option string) : ConsistentHasher * result unit :=
  let node := Node.mk node_id weight zone None in
  if decide (is_Some (_nodes r !! Node.id node)) then (r, Raise ValueError)
  else
    let r1 := set_node r node in
    let vn := _vn_count r1 node in
    insert_vnodes_any_str node (seq 0 (Z.to_nat vn)) r1.

Definition remove_node (r : ConsistentHasher) (node_id : string) : ConsistentHasher :=
  match _nodes r !! node_id with
  | None => r
  | Some _ =>
      let new_ring := filter (λ e, Node.id e.2 ≠ node_id) (_ring r) in
      let ring' := pylist.sorted fst new_ring in
      {| _seed := _seed r;
         _vn_per_weight := _vn_per_weight r;
         _lock := _lock r;
         _ring := ring';
         _sorted_tokens := ring'.*1;
         _nodes := delete node_id (_nodes r) |}
  end.

Definition get_node (r : ConsistentHasher) (key : string) : result (option string) :=
  match _ring r with
  | [] => Ok None
  | _ =>
      let tok := key_hash key (_seed r) in
      let n := length (_sorted_tokens r) in
      if n =? 0 then Raise ZeroDivisionError
      else
        let idx := bisect.bisect (_sorted_tokens r) tok `mod` n in
        match _ring r !! idx with
        | Some e => Ok (Some (Node.id e.2))
        | None => Raise IndexError
        end
  end.

(** The inner [while len(out) < replicas and n > 0] loop of
    [get_nodes_for_key], started at index [i]; [fuel] bounds the number of
    iterations. *)
Fixpoint walk (fuel : nat) (r : ConsistentHasher) (n : nat) (replicas : Z)
    (i : nat) (out : list string) (seen : gset string)
  : result (list string * gset string) :=
  if ((Z.of_nat (length out) <? replicas)%Z && (0 <? n))%bool then
    match fuel with
    | 0 => OutOfFuel
    | S fuel' =>
        match _ring r !! (i `mod` n) with
        | None => Raise IndexError
        | Some e =>
            let nid := Node.id e.2 in
            if decide (nid ∈ seen)
            then walk fuel' r n replicas (i + 1) out seen
            else walk fuel' r n replicas (i + 1) (out ++ [nid]) (seen ∪ {[nid]})
        end
    end
  else Ok (out, seen).

(** The outer [for s in starts] loop. *)
Fixpoint walk_starts (fuel : nat) (r : ConsistentHasher) (n : nat) (replicas : Z)
    (starts : list nat) (out : list string) (seen : gset string)
  : result (list string) :=
  match starts with
  | [] => Ok out
  | s :: starts' =>
      '(out', seen') ← walk fuel r n replicas s out seen;
      if (replicas <=? Z.of_nat (length out'))%Z then Ok out'
      else walk_starts fuel r n replicas starts' out' seen'
  end.

(** [starts.append(bisect.bisect(self._sorted_tokens, tok) % n)] for
    [p in range(multiprobe)]. *)
Fixpoint probe_starts (r : ConsistentHasher) (key : string) (n : nat)
    (ps : list nat) : result (list nat) :=
  match ps with
  | [] => Ok []
  | p :: ps' =>
      let tok := key_hash (key +:+ "|" +:+ pretty p) (_seed r) in
      if n =? 0 then Raise ZeroDivisionError
      else
        rest ← probe_starts r key n ps';
        Ok (bisect.bisect (_sorted_tokens r) tok `mod` n :: rest)
  end.

Definition get_nodes_for_key (fuel : nat) (r : ConsistentHasher) (key : string)
    (replicas multiprobe : Z) : result (list string) :=
  match _ring r with
  | [] => Ok []
  | _ =>
      let n := length (_sorted_tokens r) in
      starts ← probe_starts r key n (seq 0 (Z.to_nat multiprobe));
      walk_starts fuel r n replicas (pylist.sorted Z.of_nat starts) [] ∅
  end.

Definition size (r : ConsistentHasher) : nat := size (_nodes r).

Definition dump_tokens (r : ConsistentHasher) : list (Z * string) :=
  (λ e, (e.1, Node.id e.2)) <$> _ring r.

Definition stats (r : ConsistentHasher) : list (string * Z) :=
  [("nodes", Z.of_nat (size r)); ("tokens", Z.of_nat (length (_ring r)));
   ("vn_per_weight", _vn_per_weight r)].

(** [copy.deepcopy] on the values a ring holds. An [int] is atomic and is
    returned as it is; lists, tuples, dicts and dataclass instances are
    rebuilt from the deep copies of their items (values here, so the copy
    is the value); a [_thread.RLock] defines neither [__deepcopy__] nor
    [__reduce_ex__] support, and [copy.deepcopy] raises
    [TypeError: cannot pickle '_thread.RLock' object]. *)
Definition deepcopy_int (z : Z) : result Z := Ok z.
Definition deepcopy_RLock (l : RLock) : result RLock := Raise TypeError.
Definition deepcopy_Node (n : Node.t) : result Node.t := Ok n.
Definition deepcopy_entry (e : Z * Node.t) : result (Z * Node.t) :=
  t ← deepcopy_int e.1; n ← deepcopy_Node e.2; Ok (t, n).
Fixpoint deepcopy_list {A} (f : A → result A) (l : list A) : result (list A) :=
  match l with
  | [] => Ok []
  | x :: l' => y ← f x; k ← deepcopy_list f l'; Ok (y :: k)
  end.
Definition deepcopy_dict (m : gmap string Node.t) : result (gmap string Node.t) :=
  Ok m.

(** [clone]: [copy.deepcopy(self)] rebuilds the instance from the deep
    copy of its [__dict__], attribute by attribute in creation order. *)
Definition clone (r : ConsistentHasher) : result ConsistentHasher :=
  seed ← deepcopy_int (_seed r);
  vn ← deepcopy_int (_vn_per_weight r);
  lock ← deepcopy_RLock (_lock r);
  rg ← deepcopy_list deepcopy_entry (_ring r);
  toks ← deepcopy_list deepcopy_int (_sorted_tokens r);
  nds ← deepcopy_dict (_nodes r);
  Ok {| _seed := seed; _vn_per_weight := vn; _lock := lock; _ring := rg;
        _sorted_tokens := toks; _nodes := nds |}.

(** The operations of the ring, and the state each leaves behind. The
    read-only methods assign nothing to [self]. *)
Inductive ring_op :=
| op_add_node (node_id : string) (weight : Z) (zone : option string)
| op_remove_node (node_id : string)
| op_get_node (key : string)
| op_get_nodes_for_key (key : string) (replicas multiprobe : Z)
| op_size
| op_dump_tokens
| op_stats.

Definition run_op (o : ring_op) (r : ConsistentHasher) : ConsistentHasher :=
  match o with
  | op_add_node node_id weight zone => (add_node r node_id weight zone).1
  | op_remove_node node_id => remove_node r node_id
  | _ => r
  end.

(** A script of [add_node] calls run in order; it stops at the first call
    that raises. *)
Fixpoint add_nodes (r : ConsistentHasher) (calls : list (string * Z * option string))
  : ConsistentHasher * result unit :=
  match calls with
  | [] => (r, Ok ())
  | (node_id, weight, zone) :: calls' =>
      match add_node r node_id weight zone with
      | (r', Ok _) => add_nodes r' calls'
      | (r', o) => (r', o)
      end
  end.

(** The ring invariants of the data model. *)
Record ring_inv (r : ConsistentHasher) : Prop := {
  inv_vnpw : (1 ≤ _vn_per_weight r)%Z;
  inv_tokens : _sorted_tokens r = (_ring r).*1;
  inv_sorted : StronglySorted Z.le (_sorted_tokens r);
  inv_key : ∀ i n, _nodes r !! i = Some n → Node.id n = i;
  inv_count : ∀ i n, _nodes r !! i = Some n →
    Z.of_nat (length (filter (λ e, Node.id e.2 = i) (_ring r))) = _vn_count r n;
  inv_dom : ∀ e, e ∈ _ring r → _nodes r !! Node.id e.2 = Some e.2
}.

(** The rings a program can hold: a fresh ring, and the result of any
    operation on such a ring. *)
Inductive reachable : ConsistentHasher → Prop :=
| reachable_init v s : reachable (init v s)
| reachable_op o r : reachable r → reachable (run_op o r).

(** The index of the first element strictly greater than [x], or the
    length when there is none: the strict upper bound, by a linear scan. *)
Fixpoint upper_bound (x : Z) (l : list Z) : nat :=
  match l with
  | [] => 0
  | t :: l' => if (x <? t)%Z then 0 else S (upper_bound x l')
  end.

(** The node ids of the ring entries, in ring order. *)
Definition ring_ids (r : ConsistentHasher) : list string :=
  (λ e, Node.id e.2) <$> _ring r.

(** The state of the accumulators of [get_nodes_for_key] between two
    iterations: [out] has no duplicate, [seen] is its set of elements, and
    all of them are node ids of the ring. *)
Definition walk_acc (r : ConsistentHasher) (out : list string) (seen : gset string)
  : Prop :=
  NoDup out ∧ (∀ x, x ∈ seen ↔ x ∈ out) ∧ (∀ x, x ∈ out → x ∈ ring_ids r).

(** Two rings have the same layout when they agree on everything that a
    lookup reads: seed, token list, and the (token, node id) pairs. *)
Definition same_layout (r1 r2 : ConsistentHasher) : Prop :=
  _seed r1 = _seed r2 ∧ _vn_per_weight r1 = _vn_per_weight r2 ∧
  _sorted_tokens r1 = _sorted_tokens r2 ∧ dump_tokens r1 = dump_tokens r2 ∧
  dom (_nodes r1) = dom (_nodes r2).

(** Example rings. *)
Definition ring_A : ConsistentHasher := (add_node (init 1 0) "node-A" 1 None).1.
Definition ring_AB : ConsistentHasher := (add_node ring_A "node-B" 0 None).1.

(** ** [rebalance.py]: [RebalancePlanner.plan_moved] *)

Fixpoint plan_moved_loop (keys : list string) (ring_before ring_after : ConsistentHasher)
    (moved : gmap string (option string * option string))
  : result (gmap string (option string * option string)) :=
  match keys with
  | [] => Ok moved
  | k :: keys' =>
      b ← get_node ring_before k;
      a ← get_node ring_after k;
      if decide (b ≠ a)
      then plan_moved_loop keys' ring_before ring_after (<[k := (b, a)]> moved)
      else plan_moved_loop keys' ring_before ring_after moved
  end.

Definition plan_moved (keys : list string) (ring_before ring_after : ConsistentHasher) :=
  plan_moved_loop keys ring_before ring_after ∅.

(** ** [artifact_placement.py] *)

(** The files under the hosts' directories: path to content. *)
Definition filesystem := gmap string string.

Record ArtifactHost := mkHost {
  host_id : string;
  base_dir : string
}.

(** [artifact_key.replace(":", "_")] *)
Fixpoint replace_colon (s : string) : string :=
  match s with
  | EmptyString => EmptyString
  | String c s' =>
      String (if Ascii.eqb c ":"%char then "_"%char else c) (replace_colon s')
  end.

Fixpoint last_char (s : string) : option Ascii.ascii :=
  match s with
  | EmptyString => None
  | String c EmptyString => Some c
  | String _ s' => last_char s'
  end.

(** [os.path.join(a, b)] of posixpath, for two components. *)
Definition os_path_join (a b : string) : string :=
  match b with
  | String "/"%char _ => b
  | _ =>
      match last_char a with
      | None => a +:+ b
      | Some "/"%char => a +:+ b
      | Some _ => a +:+ "/" +:+ b
      end
  end.

Definition path_for (h : ArtifactHost) (artifact_key : string) : string :=
  os_path_join (base_dir h) (replace_colon artifact_key +:+ ".bin").

(** [ArtifactHost.get]: [None] when the file does not exist. *)
Definition host_get (fs : filesystem) (h : ArtifactHost) (artifact_key : string)
  : option string :=
  fs !! path_for h artifact_key.

Record ArtifactDistributor := mkDist {
  ring : ConsistentHasher;
  replication : Z;
  _hosts : gmap string ArtifactHost
}.

(** The names an [ArtifactDistributor] instance resolves: the attributes
    set by [__init__] and the methods of the class body. *)
Definition ArtifactDistributor_dir : list string :=
  ["ring"; "replication"; "_hosts"; "__init__"; "attach_host"; "detach_host";
   "placement"; "placement_with_ring"].

(** Attribute lookup [dist.name]: any other name raises [AttributeError]. *)
Definition ArtifactDistributor_getattr (name : string) : result unit :=
  if decide (name ∈ ArtifactDistributor_dir) then Ok () else Raise AttributeError.

Definition placement_with_ring (fuel : nat) (d : ArtifactDistributor)
    (artifact_key : string) (r : ConsistentHasher) : result (list (option ArtifactHost)) :=
  get_nodes_for_key fuel r artifact_key (replication d) 3%Z ≫= λ node_ids : list string,
  Ok ((λ nid, _hosts d !! nid) <$> filter (λ nid, is_Some (_hosts d !! nid)) node_ids).

(** ** [rebalance.py]: [ArtifactRebalancer.execute] *)

(** The [for h in old_hosts] loop: the value of [blob] after it. *)
Fixpoint read_old (fs : filesystem) (key : string) (old_hosts : list (option ArtifactHost))
  : option string :=
  match old_hosts with
  | [] => None
  | None :: hs => read_old fs key hs
  | Some h :: hs =>
      match host_get fs h key with
      | Some blob => Some blob
      | None => read_old fs key hs
      end
  end.

(** [execute] over [moved_artifacts.items()]. The only write of the body is
    [self.dist.distribute(key, blob)], which starts with the lookup of
    [distribute] on the distributor. *)
Fixpoint execute (fuel : nat) (d : ArtifactDistributor) (fs : filesystem)
    (items : list (string * (option string * option string)))
    (ring_before : ConsistentHasher) : result unit :=
  match items with
  | [] => Ok ()
  | (key, _) :: items' =>
      old_hosts ← placement_with_ring fuel d key ring_before;
      match read_old fs key old_hosts with
      | Some blob =>
          _ ← ArtifactDistributor_getattr "distribute";
          execute fuel d fs items' ring_before
      | None => execute fuel d fs items' ring_before
      end
  end.


(** An example distributor over [ring_A], with the one host holding a
    blob for the key [k1]. *)
Definition host_A : ArtifactHost := {| host_id := "node-A"; base_dir := "/data/a" |}.
Definition dist_A : ArtifactDistributor :=
  {| ring := ring_A; replication := 1; _hosts := {["node-A" := host_A]} |}.
Definition fs_A : filesystem := {["/data/a/k1.bin" := "blob"]}.

(** ** Owner of a hash, by a scan of the ring *)

(** The first ring entry whose token is strictly greater than [h]. *)
Fixpoint first_above (h : Z) (l : list (Z * Node.t)) : option (Z * Node.t) :=
  match l with
  | [] => None
  | e :: l' => if (h <? e.1)%Z then Some e else first_above h l'
  end.

(** The entry that owns [h]: the first one above it, or the first entry of
    the ring when no token is above [h]. *)
Definition owner_entry (h : Z) (l : list (Z * Node.t)) : option (Z * Node.t) :=
  match first_above h l with
  | Some e => Some e
  | None => head l
  end.

(** ** [rebalance.py]: [RebalancePlanner.stats] *)

(** [dict(Counter(l))]: each element of [l] with its number of occurrences. *)
Definition Counter (l : list string) : gmap string nat :=
  foldl (λ c x, <[x := S (default 0 (c !! x))]> c) ∅ l.

(** The [by_to] and [by_from] entries of [stats(plan)]:
    [Counter([to for (_, to) in plan.values() if to is not None])] and
    [Counter([frm for (frm, _) in plan.values() if frm is not None])]. *)
Definition stats_by_to (plan : gmap string (option string * option string))
  : gmap string nat :=
  Counter (omap (λ kv, kv.2.2) (map_to_list plan)).

Definition stats_by_from (plan : gmap string (option string * option string))
  : gmap string nat :=
  Counter (omap (λ kv, kv.2.1) (map_to_list plan)).

(** ** [artifact_placement.py]: the rest of [ArtifactDistributor] *)

(** [attach_host]: [self._hosts[host_id] = host], then
    [self.ring.add_node(host_id, weight=weight)]. *)
Definition attach_host (d : ArtifactDistributor) (host_id : string)
    (host : ArtifactHost) (weight : Z) : ArtifactDistributor * result unit :=
  let hosts' := <[host_id := host]> (_hosts d) in
  let ro := add_node (ring d) host_id weight None in
  ({| ring := ro.1; replication := replication d; _hosts := hosts' |}, ro.2).


(** [placement]: [[self._hosts[nid] for nid in node_ids if nid in self._hosts]];
    the guard makes every indexing succeed. *)
Definition placement (fuel : nat) (d : ArtifactDistributor) (artifact_key : string)
  : result (list ArtifactHost) :=
  get_nodes_for_key fuel (ring d) artifact_key (replication d) 3%Z
    ≫= λ node_ids : list string,
  Ok (omap (λ nid, _hosts d !! nid)
        (filter (λ nid, is_Some (_hosts d !! nid)) node_ids)).

(** The adapter map and the ring name the same ids. *)
Definition hosts_in_sync (d : ArtifactDistributor) : Prop :=
  dom (_hosts d) = dom (_nodes (ring d)).

(** ** [vector_shard_router.py] and [VectorRebalancer] *)

(** The stored vectors ([List[float]]); the code modelled here stores and
    returns them without looking inside. *)
Variable vector : Type.

Record VectorShard := mkShard {
  shard_id : string;
  _vecs : gmap string vector
}.

(** [VectorShard.upsert] and [VectorShard.get] *)
Definition shard_upsert (s : VectorShard) (vec_id : string) (vec : vector)
  : VectorShard :=
  {| shard_id := shard_id s; _vecs := <[vec_id := vec]> (_vecs s) |}.









(** ** Reading the ring clockwise *)

(** The elements of a list in the order of their first occurrence. *)
Fixpoint first_occurrences (l : list string) : list string :=
  match l with
  | [] => []
  | x :: l' => x :: filter (λ y, y ≠ x) (first_occurrences l')
  end.

(** The node ids met by [fuel] steps of the walk of [get_nodes_for_key]
    from index [i] of a ring of [n] entries. *)
Fixpoint visited (ids : list string) (n i fuel : nat) : list string :=
  match fuel with
  | 0 => []
  | S fuel' => default "" (ids !! (i `mod` n)) :: visited ids n (i + 1) fuel'
  end.

(** The loop of the walk on the list of the ids it meets. *)
Fixpoint collect (replicas : Z) (l : list string) (out : list string) : list string :=
  match l with
  | [] => out
  | x :: l' =>
      if (Z.of_nat (length out) <? replicas)%Z
      then if decide (x ∈ out) then collect replicas l' out
           else collect replicas l' (out ++ [x])
      else out
  end.

(** ** [cache_cluster.py]: [DistributedCache] *)

Context {cache_float : PyFloat} {V : Type}.

(** A [DistributedCache]: attributes [ring], [replication] and [_nodes],
    the latter from node id to node object (its address). *)
Record DistributedCache := mkCache {
  cache_ring : ConsistentHasher;
  cache_replication : Z;
  cache_nodes : gmap string nat
}.

(** The node objects: the state of the object at each address. *)
Definition node_heap : Type := nat → cache.InMemoryCacheNode (V := V).

(** The heap after the object at address [l] has taken the state [n]. *)
Definition heap_update (h : node_heap) (l : nat) (n : cache.InMemoryCacheNode (V := V))
  : node_heap :=
  λ l', if decide (l' = l) then n else h l'.

(** [_placement]: [[self._nodes[nid] for nid in node_ids if nid in self._nodes]];
    the guard makes every indexing succeed. *)
Definition cache_placement (fuel : nat) (c : DistributedCache) (key : string)
  : result (list nat) :=
  get_nodes_for_key fuel (cache_ring c) key (cache_replication c) 2%Z
    ≫= λ node_ids : list string,
  Ok (omap (λ nid, cache_nodes c !! nid)
        (filter (λ nid, is_Some (cache_nodes c !! nid)) node_ids)).

(** The loop of [get]: [nows i] is the value of [time.time()] in the
    [i]-th call of [node.get]. *)
Fixpoint get_loop (h : node_heap) (key : string) (nows : nat → pyfloat) (i : nat)
    (nodes : list nat) : node_heap * cache.outcome (option V) :=
  match nodes with
  | [] => (h, cache.Returns None)
  | l :: nodes' =>
      let no := cache.get (h l) key (nows i) in
      let h' := heap_update h l no.1 in
      match no.2 with
      | cache.Returns (Some v) => (h', cache.Returns (Some v))
      | cache.Returns None => get_loop h' key nows (S i) nodes'
      | cache.RaisesKeyError => (h', cache.RaisesKeyError)
      end
  end.

Definition cache_get (fuel : nat) (c : DistributedCache) (h : node_heap) (key : string)
    (nows : nat → pyfloat) : result (node_heap * cache.outcome (option V)) :=
  cache_placement fuel c key ≫= λ nodes : list nat, Ok (get_loop h key nows 0 nodes).

(** The loop of [set]: [nows i] is the value of [time.time()] in the
    [i]-th call of [node.set]. *)
Fixpoint set_loop (h : node_heap) (key : string) (value : option V) (ttl_sec : Z)
    (nows : nat → pyfloat) (i : nat) (nodes : list nat)
  : node_heap * cache.outcome unit :=
  match nodes with
  | [] => (h, cache.Returns ())
  | l :: nodes' =>
      let no := cache.set (h l) key value ttl_sec (nows i) in
      let h' := heap_update h l no.1 in
      match no.2 with
      | cache.Returns _ => set_loop h' key value ttl_sec nows (S i) nodes'
      | cache.RaisesKeyError => (h', cache.RaisesKeyError)
      end
  end.

Definition cache_set (fuel : nat) (c : DistributedCache) (h : node_heap) (key : string)
    (value : option V) (ttl_sec : Z) (nows : nat → pyfloat)
  : result (node_heap * cache.outcome unit) :=
  cache_placement fuel c key
    ≫= λ nodes : list nat, Ok (set_loop h key value ttl_sec nows 0 nodes).

(** An example cache over [ring_A]: one node object, at address 0, with
    room for two entries. *)
Definition cache_A : DistributedCache :=
  {| cache_ring := ring_A; cache_replication := 1; cache_nodes := {["node-A" := 0]} |}.

Definition heap_A : node_heap := λ _, cache.mkNode "node-A" [] 2.


(** * Properties *)

(** ** Binary search and list helpers *)

Example bisect_left_ties : bisect.bisect_left [1; 3; 3; 5]%Z 3 = 1.
Proof. reflexivity. Qed.

Example bisect_right_ties : bisect.bisect [1; 3; 3; 5]%Z 3 = 3.
Proof. reflexivity. Qed.

Example insert_past_end : pylist.insert 7 9 [1; 2] = [1; 2; 9].
Proof. reflexivity. Qed.

Example sorted_stable :
  pylist.sorted fst [(2, "a"); (1, "b"); (2, "c"); (1, "d")]%Z
  = [(1, "b"); (1, "d"); (2, "a"); (2, "c")]%Z.
Proof. reflexivity. Qed.

Example path_for_colon :
  path_for {| host_id := "h"; base_dir := "/data/a" |} "artifact:lora:en:1"
  = "/data/a/artifact_lora_en_1.bin".
Proof. reflexivity. Qed.

Lemma sorted_lookup_le (a : list Z) i j u v :
  StronglySorted Z.le a → a !! i = Some u → a !! j = Some v → i ≤ j → (u ≤ v)%Z.
Proof.
  intros Hs. revert i j. induction Hs as [|t a Hs IH Hall]; intros i j Hi Hj Hij.
  - by rewrite lookup_nil in Hi.
  - destruct i as [|i], j as [|j]; simplify_eq/=; try lia.
    + eapply Forall_lookup_1 in Hall; eauto.
    + eapply IH; eauto. lia.
Qed.

Lemma div2_between lo hi : lo < hi → lo ≤ (lo + hi) `div` 2 < hi.
Proof.
  intros H. split.
  - apply Nat.div_le_lower_bound; lia.
  - apply Nat.Div0.div_lt_upper_bound; lia.
Qed.

Lemma bisect_left_loop_spec fuel (a : list Z) x lo hi :
  StronglySorted Z.le a → lo ≤ hi ≤ length a → hi - lo ≤ fuel →
  Forall (λ t, t < x)%Z (take lo a) → Forall (λ t, x ≤ t)%Z (drop hi a) →
  let r := bisect.bisect_left_loop fuel a x lo hi in
  r ≤ length a ∧ Forall (λ t, t < x)%Z (take r a) ∧ Forall (λ t, x ≤ t)%Z (drop r a).
Proof.
  intros Hs. revert lo hi.
  induction fuel as [|fuel IH]; intros lo hi Hb Hf Hlo Hhi;
    cbn [bisect.bisect_left_loop].
  - assert (lo = hi) as -> by lia. split; [lia|done].
  - destruct (Nat.ltb_spec lo hi) as [Hlt|Hge].
    2:{ assert (lo = hi) as -> by lia. split; [lia|done]. }
    pose proof (div2_between lo hi Hlt) as Hmid.
    set (mid := (lo + hi) `div` 2) in *.
    assert (mid < length a) as [t Ht]%lookup_lt_is_Some_2 by lia.
    rewrite (list_lookup_total_correct _ _ _ Ht).
    destruct (Z.ltb_spec t x) as [Hc|Hc].
    + apply IH; [lia|lia| |done].
      apply Forall_lookup_2. intros i u [Hu Hi]%lookup_take_Some.
      pose proof (sorted_lookup_le a i mid u t Hs Hu Ht). lia.
    + apply IH; [lia|lia|done|].
      apply Forall_lookup_2. intros i u Hu. rewrite lookup_drop in Hu.
      pose proof (sorted_lookup_le a mid (mid + i) t u Hs Ht Hu). lia.
Qed.

Lemma bisect_left_spec (a : list Z) x :
  StronglySorted Z.le a →
  let r := bisect.bisect_left a x in
  r ≤ length a ∧ Forall (λ t, t < x)%Z (take r a) ∧ Forall (λ t, x ≤ t)%Z (drop r a).
Proof.
  intros Hs. apply bisect_left_loop_spec; [done|lia|lia|by rewrite take_0|].
  by rewrite drop_all.
Qed.

Lemma bisect_right_loop_spec fuel (a : list Z) x lo hi :
  StronglySorted Z.le a → lo ≤ hi ≤ length a → hi - lo ≤ fuel →
  Forall (λ t, t ≤ x)%Z (take lo a) → Forall (λ t, x < t)%Z (drop hi a) →
  let r := bisect.bisect_right_loop fuel a x lo hi in
  r ≤ length a ∧ Forall (λ t, t ≤ x)%Z (take r a) ∧ Forall (λ t, x < t)%Z (drop r a).
Proof.
  intros Hs. revert lo hi.
  induction fuel as [|fuel IH]; intros lo hi Hb Hf Hlo Hhi;
    cbn [bisect.bisect_right_loop].
  - assert (lo = hi) as -> by lia. split; [lia|done].
  - destruct (Nat.ltb_spec lo hi) as [Hlt|Hge].
    2:{ assert (lo = hi) as -> by lia. split; [lia|done]. }
    pose proof (div2_between lo hi Hlt) as Hmid.
    set (mid := (lo + hi) `div` 2) in *.
    assert (mid < length a) as [t Ht]%lookup_lt_is_Some_2 by lia.
    rewrite (list_lookup_total_correct _ _ _ Ht).
    destruct (Z.ltb_spec x t) as [Hc|Hc].
    + apply IH; [lia|lia|done|].
      apply Forall_lookup_2. intros i u Hu. rewrite lookup_drop in Hu.
      pose proof (sorted_lookup_le a mid (mid + i) t u Hs Ht Hu). lia.
    + apply IH; [lia|lia| |done].
      apply Forall_lookup_2. intros i u [Hu Hi]%lookup_take_Some.
      pose proof (sorted_lookup_le a i mid u t Hs Hu Ht). lia.
Qed.

Lemma upper_bound_spec x (l : list Z) :
  upper_bound x l ≤ length l ∧
  Forall (λ t, t ≤ x)%Z (take (upper_bound x l) l) ∧
  (∀ t, l !! upper_bound x l = Some t → (x < t)%Z).
Proof.
  induction l as [|t l IH]; simpl.
  - split; [lia|]. split; [done|]. by intros t.
  - destruct (Z.ltb_spec x t) as [Hc|Hc]; simpl.
    + split; [lia|]. split; [done|]. by intros ? [= <-].
    + destruct IH as (? & ? & ?). split; [lia|]. split; [|done].
      constructor; [lia|done].
Qed.

(** On a sorted list the binary search of [bisect.bisect] computes the
    strict upper bound. *)
Lemma bisect_upper_bound (a : list Z) x :
  StronglySorted Z.le a → bisect.bisect a x = upper_bound x a.
Proof.
  intros Hs.
  destruct (bisect_right_loop_spec (length a) a x 0 (length a)) as (Hr & Hle & Hgt);
    [done|lia|lia|by rewrite take_0|by rewrite drop_all|].
  destruct (upper_bound_spec x a) as (Hu & Hule & Hugt).
  unfold bisect.bisect, bisect.bisect_right.
  set (r := bisect.bisect_right_loop _ _ _ _ _) in *.
  set (u := upper_bound x a) in *.
  destruct (Nat.lt_trichotomy r u) as [Hlt|[->|Hlt]]; [|done|].
  - assert (r < length a) as [t Ht]%lookup_lt_is_Some_2 by lia.
    assert (t ≤ x)%Z.
    { eapply (Forall_lookup_1 _ _ r t Hule). apply lookup_take_Some. eauto. }
    assert (x < t)%Z; [|lia].
    eapply (Forall_lookup_1 _ _ 0 t Hgt). by rewrite lookup_drop, Nat.add_0_r.
  - assert (u < length a) as [t Ht]%lookup_lt_is_Some_2 by lia.
    assert (t ≤ x)%Z.
    { eapply (Forall_lookup_1 _ _ u t Hle). apply lookup_take_Some. eauto. }
    specialize (Hugt t Ht). lia.
Qed.

Lemma insert_Permutation {A} i (x : A) l : pylist.insert i x l ≡ₚ x :: l.
Proof.
  unfold pylist.insert. rewrite <-Permutation_middle. by rewrite take_drop.
Qed.

Lemma insert_fmap {A B} (f : A → B) i x l :
  f <$> pylist.insert i x l = pylist.insert i (f x) (f <$> l).
Proof.
  unfold pylist.insert. by rewrite fmap_app, fmap_cons, fmap_take, fmap_drop.
Qed.

Lemma insert_length {A} i (x : A) l : length (pylist.insert i x l) = S (length l).
Proof. by rewrite insert_Permutation. Qed.

(** Inserting at the [bisect_left] position keeps a sorted list sorted. *)
Lemma insert_bisect_left_sorted (a : list Z) x :
  StronglySorted Z.le a →
  StronglySorted Z.le (pylist.insert (bisect.bisect_left a x) x a).
Proof.
  intros Hs. destruct (bisect_left_spec a x Hs) as (_ & Hlt & Hge).
  set (r := bisect.bisect_left a x) in *. unfold pylist.insert.
  rewrite <-(take_drop r a) in Hs.
  apply StronglySorted_app in Hs as (Hx & Hl & Hr).
  apply StronglySorted_app_2; [|done|by constructor].
  intros u v Hu [->|Hv]%elem_of_cons.
  - rewrite Forall_forall in Hlt. specialize (Hlt u Hu). simpl in Hlt. lia.
  - by apply Hx.
Qed.

Lemma filter_all {A} (P : A → Prop) `{!∀ x, Decision (P x)} l :
  Forall P l → filter P l = l.
Proof.
  induction 1 as [|x l Hx _ IH]; [done|]. by rewrite filter_cons_True, IH.
Qed.

Lemma filter_none {A} (P : A → Prop) `{!∀ x, Decision (P x)} l :
  Forall (λ x, ¬ P x) l → filter P l = [].
Proof.
  induction 1 as [|x l Hx _ IH]; [done|]. by rewrite filter_cons_False.
Qed.

Section sorted_by_key.
Context {A : Type} (key : A → Z).

Lemma insort_Permutation e l : pylist.insort key e l ≡ₚ e :: l.
Proof.
  induction l as [|x l IH]; simpl; [done|].
  case_match; [done|]. rewrite IH. apply perm_swap.
Qed.

Lemma sorted_Permutation l : pylist.sorted key l ≡ₚ l.
Proof.
  induction l as [|x l IH]; simpl; [done|].
  fold (pylist.sorted key l). by rewrite insort_Permutation, IH.
Qed.

Lemma insort_sorted e l :
  StronglySorted Z.le (key <$> l) →
  StronglySorted Z.le (key <$> pylist.insort key e l).
Proof.
  induction l as [|x l IH]; simpl; intros Hs; [repeat constructor|].
  apply StronglySorted_cons in Hs as [Hall Hs].
  destruct (Z.leb_spec (key e) (key x)) as [Hc|Hc]; csimpl.
  - constructor; [by constructor|].
    constructor; [done|]. eapply Forall_impl; [exact Hall|]. simpl. lia.
  - constructor; [by apply IH|].
    rewrite insort_Permutation. csimpl. constructor; [lia|done].
Qed.

Lemma sorted_sorted l : StronglySorted Z.le (key <$> pylist.sorted key l).
Proof.
  induction l as [|x l IH]; simpl; [constructor|]. by apply insort_sorted.
Qed.

(** A list already sorted by key is left as it is. *)
Lemma sorted_id l : StronglySorted Z.le (key <$> l) → pylist.sorted key l = l.
Proof.
  induction l as [|x l IH]; simpl; intros Hs; [done|].
  apply StronglySorted_cons in Hs as [Hall Hs].
  fold (pylist.sorted key l). rewrite (IH Hs).
  destruct l as [|y l]; simpl; [done|].
  apply Forall_cons in Hall as [Hxy _].
  by destruct (Z.leb_spec (key x) (key y)); [|lia].
Qed.

Lemma filter_sorted (P : A → Prop) `{!∀ x, Decision (P x)} l :
  StronglySorted Z.le (key <$> l) → StronglySorted Z.le (key <$> filter P l).
Proof.
  induction l as [|x l IH]; simpl; intros Hs; [constructor|].
  apply StronglySorted_cons in Hs as [Hall Hs].
  rewrite filter_cons. case_decide; [|by apply IH].
  csimpl. constructor; [by apply IH|].
  rewrite Forall_fmap in Hall |- *. rewrite Forall_forall in Hall |- *.
  intros y [_ Hy]%list_elem_of_filter. by apply Hall.
Qed.
End sorted_by_key.

(** ** The ring invariants *)

Lemma init_inv v s : ring_inv (init v s).
Proof.
  split; simpl; try done.
  - lia.
  - constructor.
  - intros e []%elem_of_nil.
Qed.

(** What the loop of [add_node] leaves alone, and what it adds. *)
Lemma insert_vnodes_frame node idxs r :
  let r' := insert_vnodes node idxs r in
  _seed r' = _seed r ∧ _vn_per_weight r' = _vn_per_weight r ∧
  _nodes r' = _nodes r ∧
  _ring r' ≡ₚ ((λ i, (_token_for_vn r (Node.id node) i, node)) <$> idxs) ++ _ring r ∧
  _sorted_tokens r' ≡ₚ (_token_for_vn r (Node.id node) <$> idxs) ++ _sorted_tokens r.
Proof.
  revert r. induction idxs as [|i idxs IH]; intros r; simpl; [done|].
  destruct (IH (_insert_token r (_token_for_vn r (Node.id node) i) node))
    as (Hseed & Hvn & Hnodes & Hring & Htoks).
  fold (insert_vnodes node idxs) in *. simpl in *.
  repeat split; try done.
  - rewrite Hring, insert_Permutation. unfold _token_for_vn. simpl.
    by rewrite <-Permutation_middle.
  - rewrite Htoks, insert_Permutation. unfold _token_for_vn. simpl.
    by rewrite <-Permutation_middle.
Qed.

Lemma insert_token_sorted r token node :
  _sorted_tokens r = (_ring r).*1 → StronglySorted Z.le (_sorted_tokens r) →
  let r' := _insert_token r token node in
  _sorted_tokens r' = (_ring r').*1 ∧ StronglySorted Z.le (_sorted_tokens r').
Proof.
  intros Htok Hs. simpl. split.
  - by rewrite insert_fmap, Htok.
  - by apply insert_bisect_left_sorted.
Qed.

Lemma insert_vnodes_sorted node idxs r :
  _sorted_tokens r = (_ring r).*1 → StronglySorted Z.le (_sorted_tokens r) →
  let r' := insert_vnodes node idxs r in
  _sorted_tokens r' = (_ring r').*1 ∧ StronglySorted Z.le (_sorted_tokens r').
Proof.
  revert r. induction idxs as [|i idxs IH]; intros r Htok Hs; simpl; [done|].
  by apply IH; apply insert_token_sorted.
Qed.

Lemma add_node_inv r node_id weight zone :
  ring_inv r → ring_inv (add_node r node_id weight zone).1.
Proof.
  intros Hinv. unfold add_node. simpl. case_decide as Hin; [done|].
  apply eq_None_not_Some in Hin.
  set (node := Node.mk node_id weight zone None).
  set (r1 := set_node r node).
  set (idxs := seq 0 (Z.to_nat (_vn_count r1 node))).
  destruct (insert_vnodes_frame node idxs r1) as (Hseed & Hvn & Hnodes & Hring & _).
  destruct (insert_vnodes_sorted node idxs r1) as (Htok & Hs);
    [apply Hinv|apply Hinv|].
  simpl in *.
  assert (Hfresh : filter (λ e : Z * Node.t, Node.id e.2 = node_id) (_ring r) = []).
  { apply elem_of_nil_inv. intros e [He Hel]%list_elem_of_filter.
    apply (inv_dom r Hinv) in Hel. simpl in He. congruence. }
  split; simpl.
  - rewrite Hvn. apply Hinv.
  - done.
  - done.
  - rewrite Hnodes. intros i n. rewrite lookup_insert.
    case_decide; [by intros [= <-]|]. apply Hinv.
  - rewrite Hnodes. intros i n Hi. rewrite Hring, filter_app, length_app.
    unfold _vn_count. rewrite Hvn. simpl.
    rewrite lookup_insert in Hi. case_decide as Heq.
    + injection Hi as <-. subst i. rewrite Hfresh. simpl.
      rewrite filter_all.
      2:{ apply Forall_fmap, Forall_forall. by intros. }
      rewrite length_fmap. unfold idxs. rewrite length_seq.
      unfold _vn_count. simpl. pose proof (inv_vnpw r Hinv). nia.
    + rewrite filter_none.
      2:{ apply Forall_fmap, Forall_forall. intros j _. simpl. congruence. }
      simpl. by apply (inv_count r Hinv).
  - rewrite Hnodes. intros e. rewrite Hring, elem_of_app, list_elem_of_fmap.
    intros [(j & -> & _)|He]; simpl.
    + by rewrite lookup_insert_eq.
    + pose proof (inv_dom r Hinv e He) as Hd.
      rewrite lookup_insert_ne; [done|]. simpl. congruence.
Qed.

Lemma remove_node_sorted r node_id :
  let r' := remove_node r node_id in
  _sorted_tokens r = (_ring r).*1 → StronglySorted Z.le (_sorted_tokens r) →
  _sorted_tokens r' = (_ring r').*1 ∧ StronglySorted Z.le (_sorted_tokens r').
Proof.
  unfold remove_node. destruct (_nodes r !! node_id); simpl; [|done].
  intros _ _. split; [done|]. apply sorted_sorted.
Qed.

(** With a sorted ring, the re-sort of [remove_node] changes nothing: the
    new ring is the old one without the entries of the node. *)
Lemma remove_node_ring r node_id :
  ring_inv r → is_Some (_nodes r !! node_id) →
  _ring (remove_node r node_id) = filter (λ e, Node.id e.2 ≠ node_id) (_ring r).
Proof.
  intros Hinv [n Hn]. unfold remove_node. rewrite Hn. simpl.
  apply sorted_id, filter_sorted. rewrite <-(inv_tokens r Hinv). apply Hinv.
Qed.

Lemma remove_node_inv r node_id : ring_inv r → ring_inv (remove_node r node_id).
Proof.
  intros Hinv. destruct (_nodes r !! node_id) as [n0|] eqn:Hn.
  2:{ unfold remove_node. by rewrite Hn. }
  pose proof (remove_node_ring r node_id Hinv (mk_is_Some _ _ Hn)) as Hring.
  destruct (remove_node_sorted r node_id) as (Htok & Hs); [apply Hinv|apply Hinv|].
  assert (Hnodes : _nodes (remove_node r node_id) = delete node_id (_nodes r)).
  { unfold remove_node. by rewrite Hn. }
  assert (Hvn : _vn_per_weight (remove_node r node_id) = _vn_per_weight r).
  { unfold remove_node. by rewrite Hn. }
  split.
  - rewrite Hvn. apply Hinv.
  - done.
  - done.
  - rewrite Hnodes. intros i n [_ Hi]%lookup_delete_Some. by apply Hinv.
  - rewrite Hnodes, Hring. intros i n [Hne Hi]%lookup_delete_Some.
    transitivity (_vn_count r n); [|unfold _vn_count; by rewrite Hvn].
    rewrite <-(inv_count r Hinv i n Hi).
    f_equal. f_equal. rewrite list_filter_filter. apply list_filter_iff.
    intros e. split; [by intros [? _]|intros ?; split; [done|congruence]].
  - rewrite Hnodes, Hring. intros e [He Hel]%list_elem_of_filter.
    rewrite lookup_delete_ne; [|done]. by apply Hinv.
Qed.

Lemma reachable_inv r : reachable r → ring_inv r.
Proof.
  induction 1 as [v s|o r _ IH]; [apply init_inv|].
  destruct o; simpl; try done.
  - by apply add_node_inv.
  - by apply remove_node_inv.
Qed.

(** ** Owner lookup *)

Lemma ring_inv_length r : ring_inv r → length (_sorted_tokens r) = length (_ring r).
Proof. intros Hinv. by rewrite (inv_tokens r Hinv), length_fmap. Qed.

Lemma get_node_empty r key : _ring r = [] → get_node r key = Ok None.
Proof. unfold get_node. by intros ->. Qed.

Lemma get_node_nonempty r key :
  ring_inv r → _ring r ≠ [] →
  ∃ e, _ring r !! (upper_bound (key_hash key (_seed r)) (_sorted_tokens r)
                     `mod` length (_ring r)) = Some e
       ∧ get_node r key = Ok (Some (Node.id e.2)).
Proof.
  intros Hinv Hne. pose proof (ring_inv_length r Hinv) as Hlen.
  assert (Hpos : length (_ring r) ≠ 0) by (by destruct (_ring r)).
  unfold get_node. destruct (_ring r) as [|e0 rest] eqn:Hring; [done|].
  rewrite <-Hring in *. clear Hring.
  destruct (Nat.eqb_spec (length (_sorted_tokens r)) 0) as [Hz|_]; [lia|].
  rewrite (bisect_upper_bound _ _ (inv_sorted r Hinv)), Hlen.
  set (idx := _ `mod` _).
  assert (idx < length (_ring r)) as [e He]%lookup_lt_is_Some_2
    by (by apply Nat.mod_upper_bound).
  exists e. by rewrite He.
Qed.

Lemma get_node_total r key : ring_inv r → ∃ o, get_node r key = Ok o.
Proof.
  intros Hinv. destruct (decide (_ring r = [])) as [He|Hne].
  - exists None. by apply get_node_empty.
  - destruct (get_node_nonempty r key Hinv Hne) as (e & _ & ->). eauto.
Qed.

(** C1. On a ring that satisfies the invariants, [get_node] returns [None]
    exactly when the ring is empty; otherwise, with [j] the strict upper
    bound of the key's hash in the sorted token list (every token before
    index [j] is at most the hash, the token at [j], if any, is strictly
    greater), it returns the node id of the ring entry at index
    [j mod len(ring)]. *)
Theorem get_node_owner r key :
  ring_inv r →
  (get_node r key = Ok None ↔ _ring r = []) ∧
  (_ring r ≠ [] →
   let tok := key_hash key (_seed r) in
   let j := upper_bound tok (_sorted_tokens r) in
   (∀ i t, i < j → _sorted_tokens r !! i = Some t → (t ≤ tok)%Z) ∧
   (∀ t, _sorted_tokens r !! j = Some t → (tok < t)%Z) ∧
   ∃ e, _ring r !! (j `mod` length (_ring r)) = Some e ∧
        get_node r key = Ok (Some (Node.id e.2))).
Proof.
  intros Hinv. split.
  - split; [|apply get_node_empty].
    intros Hnone. destruct (decide (_ring r = [])) as [|Hne]; [done|].
    destruct (get_node_nonempty r key Hinv Hne) as (e & _ & Hget). congruence.
  - intros Hne tok j.
    destruct (upper_bound_spec tok (_sorted_tokens r)) as (_ & Hle & Hgt).
    split; [|split; [done|by apply get_node_nonempty]].
    intros i t Hi Ht. eapply (Forall_lookup_1 _ _ i t Hle).
    apply lookup_take_Some. eauto.
Qed.

(** ** [add_node] *)

(** For an id that UTF-8 encodes, [add_node] raises (a [ValueError]) if and
    only if the id is already in the id-map, it returns normally if and only
    if it is not, and when it raises the state of the ring is the state
    before the call. *)
Lemma add_node_encodable_duplicate r node_id weight zone :
  ((add_node r node_id weight zone).2 = Raise ValueError
     ↔ is_Some (_nodes r !! node_id)) ∧
  ((add_node r node_id weight zone).2 = Ok () ↔ _nodes r !! node_id = None) ∧
  ((add_node r node_id weight zone).2 ≠ Ok () → (add_node r node_id weight zone).1 = r).
Proof.
  unfold add_node. simpl. case_decide as Hin; simpl.
  - split; [done|]. split; [|done]. split; [done|].
    intros Hnone. destruct Hin as [n Hn]. congruence.
  - apply eq_None_not_Some in Hin. split; [|done]. split; [done|].
    intros [n Hn]. congruence.
Qed.

(** *** [add_node] on every [str] *)

Lemma pretty_N_go_isascii x s :
  str.isascii s = true → str.isascii (pretty_N_go x s) = true.
Proof.
  clear h64. revert s. induction (N.lt_wf_0 x) as [x _ IH]; intros s Hs.
  assert (x = 0 ∨ 0 < x)%N as [->|Hpos] by lia.
  - by rewrite pretty_N_go_0.
  - rewrite pretty_N_go_step by done. apply IH; [by apply N.div_lt|].
    cbn [str.isascii]. rewrite Hs. unfold pretty_N_char. by repeat case_match.
Qed.

(** [str(i)] is made of ASCII digits. *)
Lemma pretty_nat_isascii (n : nat) : str.isascii (pretty n) = true.
Proof.
  clear h64. unfold pretty, pretty_nat, pretty, pretty_N. case_decide; [done|].
  by apply pretty_N_go_isascii.
Qed.

Lemma has_surrogate_cons c d s :
  str.has_surrogate (String c (String d s))
  = str.surrogate_at c d || str.has_surrogate (String d s).
Proof. done. Qed.

Lemma has_surrogate_isascii t : str.isascii t = true → str.has_surrogate t = false.
Proof.
  clear h64. induction t as [|c t IH]; [done|]. cbn [str.isascii].
  intros [Hc Ht]%andb_prop. destruct t as [|d t']; [done|].
  rewrite has_surrogate_cons, (IH Ht), orb_false_r.
  unfold str.surrogate_at. destruct (Ascii.eqb_spec c "237") as [->|]; [|done].
  by vm_compute in Hc.
Qed.

(** Appending ASCII text neither adds nor removes a surrogate. *)
Lemma has_surrogate_app_isascii s t :
  str.isascii t = true → str.has_surrogate (s +:+ t) = str.has_surrogate s.
Proof.
  clear h64. intros Ht. induction s as [|c s IH].
  - by apply has_surrogate_isascii.
  - destruct s as [|d s'].
    + change (String c "" +:+ t) with (String c t). destruct t as [|d t']; [done|].
      rewrite has_surrogate_cons, (has_surrogate_isascii _ Ht), orb_false_r.
      cbn [str.isascii] in Ht. apply andb_prop in Ht as [Hd _].
      unfold str.surrogate_at. apply Nat.ltb_lt in Hd.
      rewrite (proj2 (Nat.leb_gt 160 _)) by lia. by rewrite andb_false_r.
    + change (String c (String d s') +:+ t) with (String c (String d (s' +:+ t))).
      rewrite !has_surrogate_cons. f_equal. apply IH.
Qed.

(** [f"{node_id}#{replica_idx}"] encodes exactly when [node_id] does. *)
Lemma has_surrogate_vn_name node_id (i : nat) :
  str.has_surrogate (node_id +:+ "#" +:+ pretty i) = str.has_surrogate node_id.
Proof.
  clear h64. apply has_surrogate_app_isascii.
  change ("#" +:+ pretty i) with (String "#" (pretty i)).
  cbn [str.isascii]. by rewrite pretty_nat_isascii.
Qed.

Lemma _token_for_vn_any_str_ok r node_id i :
  str.has_surrogate node_id = false →
  _token_for_vn_any_str r node_id i = Ok (_token_for_vn r node_id i).
Proof.
  intros Hs. unfold _token_for_vn_any_str, str.encode.
  by rewrite has_surrogate_vn_name, Hs.
Qed.

Lemma _token_for_vn_any_str_raises r node_id i :
  str.has_surrogate node_id = true →
  _token_for_vn_any_str r node_id i = Raise UnicodeEncodeError.
Proof.
  intros Hs. unfold _token_for_vn_any_str, str.encode.
  by rewrite has_surrogate_vn_name, Hs.
Qed.

Lemma insert_vnodes_any_str_ok node idxs r :
  str.has_surrogate (Node.id node) = false →
  insert_vnodes_any_str node idxs r = (insert_vnodes node idxs r, Ok ()).
Proof.
  intros Hs. revert r. induction idxs as [|i idxs IH]; intros r; [done|].
  cbn [insert_vnodes_any_str]. rewrite _token_for_vn_any_str_ok by done.
  by rewrite IH.
Qed.

Lemma insert_vnodes_any_str_raises node idxs r :
  str.has_surrogate (Node.id node) = true → idxs ≠ [] →
  insert_vnodes_any_str node idxs r = (r, Raise UnicodeEncodeError).
Proof.
  intros Hs Hne. destruct idxs as [|i idxs]; [done|].
  cbn [insert_vnodes_any_str]. by rewrite _token_for_vn_any_str_raises.
Qed.

(** On an id that UTF-8 encodes, [add_node_any_str] is [add_node]. *)
Lemma add_node_any_str_encodable r node_id weight zone :
  str.has_surrogate node_id = false →
  add_node_any_str r node_id weight zone = add_node r node_id weight zone.
Proof.
  intros Hs. unfold add_node_any_str, add_node.
  case_decide; [done|]. by rewrite insert_vnodes_any_str_ok.
Qed.

(** [range(vn)] is not empty: the constructor keeps
    [virtual_nodes_per_weight >= 1]. *)
Lemma vn_range_nonempty r node :
  (1 ≤ _vn_per_weight r)%Z → seq 0 (Z.to_nat (_vn_count r node)) ≠ [].
Proof.
  clear h64. intros Hv. unfold _vn_count.
  assert (1 ≤ _vn_per_weight r * Z.max 1 (Node.weight node))%Z by nia.
  destruct (Z.to_nat _) eqn:E; [lia|done].
Qed.

(** What a new id that UTF-8 cannot encode leaves behind: the first
    [_token_for_vn] raises after [self._nodes[node.id] = node], so the id is
    registered and owns no token. *)
Lemma add_node_any_str_unencodable r node_id weight zone :
  (1 ≤ _vn_per_weight r)%Z →
  _nodes r !! node_id = None → str.has_surrogate node_id = true →
  add_node_any_str r node_id weight zone
  = (set_node r (Node.mk node_id weight zone None), Raise UnicodeEncodeError).
Proof.
  intros Hv Hn Hs. unfold add_node_any_str. cbn [Node.id].
  rewrite decide_False by (rewrite Hn; by intros []).
  rewrite insert_vnodes_any_str_raises;
    [done..|by apply (vn_range_nonempty (set_node r _))].
Qed.

(** C4, as amended. On a ring with [virtual_nodes_per_weight >= 1] (every
    ring the constructor gives), for every [str] id: [add_node] raises
    [ValueError] if and only if the id is already in the id-map, and then the
    state of the ring is the state before the call; it raises
    [UnicodeEncodeError] if and only if the id is new and holds a surrogate
    (UTF-8 cannot encode it); it returns normally if and only if the id is
    new and UTF-8 encodes it. *)
Theorem add_node_error_cases r node_id weight zone :
  (1 ≤ _vn_per_weight r)%Z →
  let out := add_node_any_str r node_id weight zone in
  (out.2 = Raise ValueError ↔ is_Some (_nodes r !! node_id)) ∧
  (out.2 = Raise ValueError → out.1 = r) ∧
  (out.2 = Raise UnicodeEncodeError
   ↔ _nodes r !! node_id = None ∧ str.has_surrogate node_id = true) ∧
  (out.2 = Ok ()
   ↔ _nodes r !! node_id = None ∧ str.has_surrogate node_id = false).
Proof.
  intros Hv out. subst out. unfold add_node_any_str. cbn [Node.id].
  case_decide as Hin; cbn [fst snd].
  - split; [done|]. split; [done|].
    split; (split; [done|intros [Hn _]; rewrite Hn in Hin; by destruct Hin]).
  - apply eq_None_not_Some in Hin.
    destruct (str.has_surrogate node_id) eqn:Hs.
    + rewrite insert_vnodes_any_str_raises;
        [|done|by apply (vn_range_nonempty (set_node r _))].
      cbn [fst snd]. rewrite Hin. split; [split; [done|by intros []]|].
      split; [done|]. split; [done|]. split; [done|by intros []].
    + rewrite insert_vnodes_any_str_ok by done. cbn [fst snd]. rewrite Hin.
      split; [split; [done|by intros []]|].
      split; [done|]. split; [|done]. split; [done|by intros []].
Qed.



(** ** [clone] *)

(** C5. [clone] never returns a copy: deep-copying the ring reaches its
    [RLock] and raises [TypeError], whatever the state of the ring. *)
Theorem clone_raises r : clone r = Raise TypeError.
Proof. reflexivity. Qed.

(** ** The planner *)

Lemma plan_moved_loop_spec keys r1 r2 moved :
  ring_inv r1 → ring_inv r2 →
  ∃ plan, plan_moved_loop keys r1 r2 moved = Ok plan ∧
    ∀ k, ∃ b a, get_node r1 k = Ok b ∧ get_node r2 k = Ok a ∧
      plan !! k = if decide (k ∈ keys ∧ b ≠ a) then Some (b, a) else moved !! k.
Proof.
  intros H1 H2. revert moved.
  induction keys as [|k0 keys IH]; intros moved; cbn [plan_moved_loop].
  - exists moved. split; [done|]. intros k.
    destruct (get_node_total r1 k H1) as [b Hb], (get_node_total r2 k H2) as [a Ha].
    exists b, a. split; [done|]. split; [done|].
    case_decide as Hd; [|done]. by destruct Hd as [[]%elem_of_nil _].
  - destruct (get_node_total r1 k0 H1) as [b0 Hb0].
    destruct (get_node_total r2 k0 H2) as [a0 Ha0].
    rewrite Hb0, Ha0. cbn [mbind result_bind].
    destruct (decide (b0 ≠ a0)) as [Hne|Heq].
    + destruct (IH (<[k0 := (b0, a0)]> moved)) as (plan & Hplan & Hlook).
      exists plan. split; [done|]. intros k.
      destruct (Hlook k) as (b & a & Hb & Ha & Hk). exists b, a.
      split; [done|]. split; [done|]. rewrite Hk.
      destruct (decide (k = k0)) as [->|Hk0].
      * assert (b = b0) as -> by congruence. assert (a = a0) as -> by congruence.
        rewrite lookup_insert_eq.
        destruct (decide (k0 ∈ k0 :: keys ∧ b0 ≠ a0)) as [_|Hn]; [by case_decide|].
        destruct Hn. by split; [left|].
      * rewrite lookup_insert_ne by done.
        apply decide_ext. rewrite elem_of_cons. intuition congruence.
    + destruct (IH moved) as (plan & Hplan & Hlook).
      exists plan. split; [done|]. intros k.
      destruct (Hlook k) as (b & a & Hb & Ha & Hk). exists b, a.
      split; [done|]. split; [done|]. rewrite Hk.
      apply decide_ext. rewrite elem_of_cons. split; [intuition|].
      intros [[->|Hin] Hba]; [|done]. destruct Heq. congruence.
Qed.

(** C3. For rings that satisfy the invariants, [plan_moved] returns a plan
    in which a key of the input is present if and only if its owners in
    the two rings differ (as optional ids), mapped to the pair (owner
    before, owner after); the plan has no other key. *)
Theorem plan_moved_correct keys r1 r2 :
  ring_inv r1 → ring_inv r2 →
  ∃ plan, plan_moved keys r1 r2 = Ok plan ∧
    (∀ k, k ∈ keys →
       ∃ b a, get_node r1 k = Ok b ∧ get_node r2 k = Ok a ∧
              (is_Some (plan !! k) ↔ b ≠ a) ∧
              (b ≠ a → plan !! k = Some (b, a))) ∧
    (∀ k, is_Some (plan !! k) → k ∈ keys).
Proof.
  intros H1 H2.
  destruct (plan_moved_loop_spec keys r1 r2 ∅ H1 H2) as (plan & Hplan & Hlook).
  exists plan. split; [done|]. split.
  - intros k Hin. destruct (Hlook k) as (b & a & Hb & Ha & Hk).
    exists b, a. split; [done|]. split; [done|]. rewrite Hk.
    case_decide as Hd.
    + split; [|done]. split; [by intros _; apply Hd|eauto].
    + rewrite lookup_empty. split; [|by intros ?; destruct Hd].
      split; [by intros [? ?]|]. intros ?. by destruct Hd.
  - intros k Hsome. destruct (Hlook k) as (b & a & _ & _ & Hk).
    rewrite Hk in Hsome. case_decide as Hd; [apply Hd|].
    rewrite lookup_empty in Hsome. by destruct Hsome.
Qed.

(** ** Determinism of the layout *)

Lemma same_layout_refl r : same_layout r r.
Proof. by repeat split. Qed.

Lemma same_layout_get_node r1 r2 key :
  same_layout r1 r2 → get_node r1 key = get_node r2 key.
Proof.
  intros (Hseed & _ & Htok & Hdump & _). unfold get_node, dump_tokens in *.
  rewrite Hseed, Htok.
  set (idx := _ `mod` _).
  assert (Hidx : (λ e : Z * Node.t, (e.1, Node.id e.2)) <$> _ring r1 !! idx
                 = (λ e : Z * Node.t, (e.1, Node.id e.2)) <$> _ring r2 !! idx)
    by (by rewrite <-!list_lookup_fmap, Hdump).
  destruct (_ring r1) as [|e1 l1], (_ring r2) as [|e2 l2]; try done.
  destruct (_ =? 0); [done|].
  destruct ((e1 :: l1) !! idx), ((e2 :: l2) !! idx); simplify_eq/=; congruence.
Qed.

Lemma same_layout_insert_token r1 r2 token n1 n2 :
  Node.id n1 = Node.id n2 → same_layout r1 r2 →
  same_layout (_insert_token r1 token n1) (_insert_token r2 token n2).
Proof.
  intros Hid (Hseed & Hvn & Htok & Hdump & Hdom).
  unfold same_layout, dump_tokens in *. simpl.
  rewrite !insert_fmap, Htok, Hdump. simpl. by rewrite Hid.
Qed.

Lemma same_layout_insert_vnodes n1 n2 idxs r1 r2 :
  Node.id n1 = Node.id n2 → same_layout r1 r2 →
  same_layout (insert_vnodes n1 idxs r1) (insert_vnodes n2 idxs r2).
Proof.
  intros Hid. revert r1 r2. induction idxs as [|i idxs IH]; intros r1 r2 Hl; [done|].
  simpl. apply IH. unfold _token_for_vn.
  destruct Hl as (Hseed & Hl). rewrite Hid, Hseed.
  by apply same_layout_insert_token.
Qed.

Lemma same_layout_add_node r1 r2 node_id weight z1 z2 :
  same_layout r1 r2 →
  (add_node r1 node_id weight z1).2 = (add_node r2 node_id weight z2).2 ∧
  same_layout (add_node r1 node_id weight z1).1 (add_node r2 node_id weight z2).1.
Proof.
  intros Hl. pose proof Hl as (Hseed & Hvn & Htok & Hdump & Hdom).
  assert (Hin : is_Some (_nodes r1 !! node_id) ↔ is_Some (_nodes r2 !! node_id))
    by (by rewrite <-!elem_of_dom, Hdom).
  unfold add_node. simpl.
  destruct (decide (is_Some (_nodes r1 !! node_id))) as [H1|H1],
           (decide (is_Some (_nodes r2 !! node_id))) as [H2|H2];
    simpl; try done; try (by destruct H2; apply Hin); try (by destruct H1; apply Hin).
  split; [done|].
  unfold _vn_count. simpl. rewrite Hvn.
  apply same_layout_insert_vnodes; [done|].
  unfold same_layout, dump_tokens in *. simpl.
  by rewrite !dom_insert_L, Hdom.
Qed.

Lemma add_nodes_same_layout calls1 calls2 r1 r2 :
  same_layout r1 r2 →
  (λ c : string * Z * option string, (c.1.1, c.1.2)) <$> calls1
    = (λ c : string * Z * option string, (c.1.1, c.1.2)) <$> calls2 →
  (add_nodes r1 calls1).2 = (add_nodes r2 calls2).2 ∧
  same_layout (add_nodes r1 calls1).1 (add_nodes r2 calls2).1.
Proof.
  revert calls2 r1 r2.
  induction calls1 as [|[[i1 w1] z1] calls1 IH];
    intros [|[[i2 w2] z2] calls2] r1 r2 Hl Hc; simplify_eq/=; [done|].
  destruct (same_layout_add_node r1 r2 i2 w2 z1 z2 Hl) as [Ho Hl'].
  destruct (add_node r1 i2 w2 z1) as [r1' o1], (add_node r2 i2 w2 z2) as [r2' o2].
  simpl in *. subst o2. destruct o1; simpl; try done. by apply IH.
Qed.

(** C6. Two rings created with the same [virtual_nodes_per_weight] and
    seed and built by scripts of [add_node] calls that agree on the
    (id, weight) of every call (the zones may differ) end with the same
    outcome, the same token list and the same (token, node id) layout,
    and [get_node] agrees on them for every key. *)
Theorem same_calls_same_layout vnpw seed calls1 calls2 :
  (λ c : string * Z * option string, (c.1.1, c.1.2)) <$> calls1
    = (λ c : string * Z * option string, (c.1.1, c.1.2)) <$> calls2 →
  let s1 := add_nodes (init vnpw seed) calls1 in
  let s2 := add_nodes (init vnpw seed) calls2 in
  s1.2 = s2.2 ∧
  _sorted_tokens s1.1 = _sorted_tokens s2.1 ∧
  dump_tokens s1.1 = dump_tokens s2.1 ∧
  ∀ key, get_node s1.1 key = get_node s2.1 key.
Proof.
  intros Hc s1 s2.
  destruct (add_nodes_same_layout calls1 calls2 (init vnpw seed) (init vnpw seed)
              (same_layout_refl _) Hc) as [Ho Hl].
  fold s1 s2 in Ho, Hl. split; [done|].
  split; [apply Hl|]. split; [apply Hl|].
  intros key. by apply same_layout_get_node.
Qed.

(** ** Replica selection *)

Lemma walk_unfold fuel r n replicas i out seen :
  walk fuel r n replicas i out seen =
  if ((Z.of_nat (length out) <? replicas)%Z && (0 <? n))%bool then
    match fuel with
    | 0 => OutOfFuel
    | S fuel' =>
        match _ring r !! (i `mod` n) with
        | None => Raise IndexError
        | Some e =>
            if decide (Node.id e.2 ∈ seen)
            then walk fuel' r n replicas (i + 1) out seen
            else walk fuel' r n replicas (i + 1) (out ++ [Node.id e.2])
                   (seen ∪ {[Node.id e.2]})
        end
    end
  else Ok (out, seen).
Proof. by destruct fuel. Qed.

(** Whatever the walk returns comes from the accumulator or from the
    node ids of the ring. *)
Lemma walk_elem fuel r n replicas i out seen out' seen' :
  walk fuel r n replicas i out seen = Ok (out', seen') →
  ∀ x, x ∈ out' → x ∈ out ∨ x ∈ ring_ids r.
Proof.
  revert i out seen.
  induction fuel as [|fuel IH]; intros i out seen; rewrite walk_unfold;
    destruct (_ && _); try done; try (by intros [= <- <-]; auto).
  destruct (_ring r !! (i `mod` n)) as [e|] eqn:He; [|done].
  case_decide.
  - apply IH.
  - intros Hw x Hx. destruct (IH _ _ _ Hw x Hx) as [Hin|Hin]; [|by right].
    apply elem_of_app in Hin as [Hin|Hin]; [by left|].
    apply list_elem_of_singleton in Hin as ->.
    right. apply list_elem_of_fmap. exists e. split; [done|].
    by eapply list_elem_of_lookup_2.
Qed.

Lemma walk_starts_elem fuel r n replicas starts out seen out' :
  walk_starts fuel r n replicas starts out seen = Ok out' →
  ∀ x, x ∈ out' → x ∈ out ∨ x ∈ ring_ids r.
Proof.
  revert out seen. induction starts as [|s starts IH]; intros out seen; simpl.
  - intros [= <-]. auto.
  - destruct (walk fuel r n replicas s out seen) as [[o1 s1]| |] eqn:Hw;
      simpl; [|done|done].
    pose proof (walk_elem _ _ _ _ _ _ _ _ _ Hw) as Hel.
    destruct (_ <=? _)%Z.
    + intros [= <-]. done.
    + intros Hrest x Hx. destruct (IH _ _ Hrest x Hx) as [Hin|Hin]; auto.
Qed.

Lemma get_nodes_for_key_elem fuel r key replicas multiprobe out :
  get_nodes_for_key fuel r key replicas multiprobe = Ok out →
  ∀ x, x ∈ out → x ∈ ring_ids r.
Proof.
  unfold get_nodes_for_key. destruct (_ring r) as [|e0 rest] eqn:Hring.
  - intros [= <-] x []%elem_of_nil.
  - destruct (probe_starts _ _ _ _) as [starts| |]; simpl; [|done|done].
    intros Hw x Hx.
    destruct (walk_starts_elem _ _ _ _ _ _ _ _ Hw x Hx) as [Hn|]; [|done].
    by apply elem_of_nil in Hn.
Qed.

Lemma walk_acc_nil r : walk_acc r [] ∅.
Proof.
  split; [constructor|]. split; intros x; [|by intros ?%elem_of_nil].
  split; [by intros ?%not_elem_of_empty|by intros ?%elem_of_nil].
Qed.

Lemma walk_acc_snoc r out seen e :
  walk_acc r out seen → e ∈ _ring r → Node.id e.2 ∉ seen →
  walk_acc r (out ++ [Node.id e.2]) (seen ∪ {[Node.id e.2]}).
Proof.
  intros (Hnd & Hseen & Hsub) He Hnot. split; [|split].
  - apply NoDup_app. split; [done|]. split; [|apply NoDup_singleton].
    intros x Hx Hs. apply list_elem_of_singleton in Hs as ->.
    by apply Hnot, Hseen.
  - intros x.
    rewrite elem_of_union, elem_of_singleton, elem_of_app, list_elem_of_singleton.
    by rewrite Hseen.
  - intros x [Hx|Hx]%elem_of_app; [by apply Hsub|].
    apply list_elem_of_singleton in Hx as ->.
    apply list_elem_of_fmap. by exists e.
Qed.

Lemma ring_lookup_mod r i :
  _ring r ≠ [] → ∃ e, _ring r !! (i `mod` length (_ring r)) = Some e.
Proof.
  intros Hne. apply lookup_lt_is_Some_2, Nat.mod_upper_bound.
  by destruct (_ring r).
Qed.

(** One run of the inner loop: either it stops with exactly [replicas]
    ids, or the fuel runs out with fewer, after it has collected the id
    of each of the [fuel] ring positions it has visited. *)
Lemma walk_progress fuel r replicas i out seen :
  _ring r ≠ [] → walk_acc r out seen → (Z.of_nat (length out) ≤ replicas)%Z →
  let n := length (_ring r) in
  (∃ out' seen', walk fuel r n replicas i out seen = Ok (out', seen') ∧
     walk_acc r out' seen' ∧ Z.of_nat (length out') = replicas)
  ∨ (walk fuel r n replicas i out seen = OutOfFuel ∧
     ∃ out'', NoDup out'' ∧ (∀ x, x ∈ out'' → x ∈ ring_ids r) ∧
       (Z.of_nat (length out'') < replicas)%Z ∧ (∀ x, x ∈ out → x ∈ out'') ∧
       ∀ k e, k < fuel → _ring r !! ((i + k) `mod` n) = Some e →
              Node.id e.2 ∈ out'').
Proof.
  intros Hne Hacc Hlen n. revert i out seen Hacc Hlen.
  assert (Hn : (0 <? n) = true).
  { apply Nat.ltb_lt. subst n. destruct (_ring r); [done|simpl; lia]. }
  induction fuel as [|fuel IH]; intros i out seen Hacc Hlen;
    rewrite walk_unfold, Hn, andb_true_r;
    (destruct (Z.ltb_spec (Z.of_nat (length out)) replicas) as [Hlt|Hge];
     [|left; exists out, seen; split; [done|]; split; [done|lia]]).
  - right. split; [done|]. exists out. destruct Hacc as (Hnd & _ & Hsub).
    repeat split; try done. intros k e Hk. lia.
  - destruct (ring_lookup_mod r i Hne) as [e He]. fold n in He. rewrite He.
    assert (Hel : e ∈ _ring r) by (by eapply list_elem_of_lookup_2).
    case_decide as Hseen.
    + destruct (IH (i + 1) out seen Hacc Hlen)
        as [Hok|(Hout & out'' & Hnd & Hsub & Hl & Hincl & Hcov)]; [by left|].
      right. split; [done|]. exists out''. repeat split; try done.
      intros [|k] e' Hk He'.
      * rewrite Nat.add_0_r, He in He'. injection He' as <-.
        apply Hincl. by apply Hacc.
      * apply (Hcov k e'); [lia|]. by replace (i + 1 + k) with (i + S k) by lia.
    + destruct (IH (i + 1) _ _ (walk_acc_snoc r out seen e Hacc Hel Hseen))
        as [Hok|(Hout & out'' & Hnd & Hsub & Hl & Hincl & Hcov)];
        [rewrite length_app; simpl; lia|by left|].
      right. split; [done|]. exists out''. repeat split; try done.
      * intros x Hx. apply Hincl, elem_of_app. by left.
      * intros [|k] e' Hk He'.
        -- rewrite Nat.add_0_r, He in He'. injection He' as <-.
           apply Hincl, elem_of_app. right. by apply list_elem_of_singleton.
        -- apply (Hcov k e'); [lia|]. by replace (i + 1 + k) with (i + S k) by lia.
Qed.

Lemma mod_cover i j n : j < n → ∃ k, k < n ∧ (i + k) `mod` n = j.
Proof.
  intros Hj. exists ((j + (n - i `mod` n)) `mod` n).
  split; [apply Nat.mod_upper_bound; lia|].
  rewrite Nat.Div0.add_mod_idemp_r.
  pose proof (Nat.div_mod_eq i n) as Hi.
  pose proof (Nat.mod_upper_bound i n ltac:(lia)) as Hm.
  replace (i + (j + (n - i `mod` n))) with (j + (i `div` n + 1) * n) by nia.
  rewrite Nat.Div0.mod_add. by apply Nat.mod_small.
Qed.

(** A walk that visits every ring position has collected every node id. *)
Lemma walk_enough fuel r replicas i :
  _ring r ≠ [] → length (_ring r) ≤ fuel →
  (0 ≤ replicas ≤ Z.of_nat (base.size (list_to_set (ring_ids r) : gset string)))%Z →
  ∃ out' seen', walk fuel r (length (_ring r)) replicas i [] ∅ = Ok (out', seen') ∧
    walk_acc r out' seen' ∧ Z.of_nat (length out') = replicas.
Proof.
  intros Hne Hfuel Hrep.
  destruct (walk_progress fuel r replicas i [] ∅ Hne (walk_acc_nil r))
    as [Hok|(_ & out'' & Hnd & Hsub & Hl & _ & Hcov)]; [simpl; lia|done|].
  exfalso.
  assert (Hall : (list_to_set (ring_ids r) : gset string) ⊆ list_to_set out'').
  { intros x. rewrite !elem_of_list_to_set.
    intros (e & -> & [j Hj]%list_elem_of_lookup_1)%list_elem_of_fmap.
    destruct (mod_cover i j (length (_ring r))) as (k & Hk & Hmod);
      [by eapply lookup_lt_Some|].
    apply (Hcov k e); [lia|]. by rewrite Hmod. }
  apply subseteq_size in Hall. rewrite (size_list_to_set out'') in Hall by done.
  lia.
Qed.

Lemma probe_starts_ok r key n ps :
  n ≠ 0 → ∃ starts, probe_starts r key n ps = Ok starts ∧ length starts = length ps.
Proof.
  intros Hn. induction ps as [|p ps (starts & Hs & Hl)]; simpl; [by exists []|].
  destruct (Nat.eqb_spec n 0) as [|_]; [done|]. rewrite Hs. simpl.
  eexists. split; [done|]. simpl. by rewrite Hl.
Qed.

(** The ids of the ring entries are the ids of the id-map. *)
Lemma ring_ids_dom r :
  ring_inv r → (list_to_set (ring_ids r) : gset string) = dom (_nodes r).
Proof.
  intros Hinv. apply set_eq. intros x.
  rewrite elem_of_list_to_set, elem_of_dom. split.
  - intros (e & -> & He)%list_elem_of_fmap. rewrite (inv_dom r Hinv e He). eauto.
  - intros [n Hn]. pose proof (inv_count r Hinv x n Hn) as Hc.
    pose proof (inv_vnpw r Hinv). unfold _vn_count in Hc.
    destruct (filter (λ e : Z * Node.t, Node.id e.2 = x) (_ring r)) as [|e l] eqn:Hf.
    { simpl in Hc. nia. }
    assert (He : e ∈ filter (λ e : Z * Node.t, Node.id e.2 = x) (_ring r))
      by (rewrite Hf; left).
    apply list_elem_of_filter in He as [Hid He].
    apply list_elem_of_fmap. by exists e.
Qed.

Lemma ring_ids_size r :
  ring_inv r → base.size (list_to_set (ring_ids r) : gset string) = size r.
Proof. intros Hinv. rewrite (ring_ids_dom r Hinv). apply size_dom. Qed.

(** The part of C2 that holds: with [1 <= replicas <= size()] and
    [multiprobe >= 1], on a ring that satisfies the invariants,
    [get_nodes_for_key] returns (one pass over the ring is enough fuel)
    exactly [replicas] pairwise distinct ids of nodes of the ring. *)
Theorem get_nodes_for_key_enough_nodes fuel r key replicas multiprobe :
  ring_inv r → length (_ring r) ≤ fuel →
  (1 ≤ multiprobe)%Z → (1 ≤ replicas ≤ Z.of_nat (size r))%Z →
  ∃ out, get_nodes_for_key fuel r key replicas multiprobe = Ok out ∧
         NoDup out ∧ Z.of_nat (length out) = replicas ∧
         ∀ x, x ∈ out → x ∈ dom (_nodes r).
Proof.
  intros Hinv Hfuel Hmp Hrep.
  pose proof (ring_ids_size r Hinv) as Hsize.
  pose proof (ring_inv_length r Hinv) as Hlen.
  assert (Hne : _ring r ≠ []).
  { intros Hnil.
    assert (base.size (list_to_set (ring_ids r) : gset string) = 0); [|lia].
    unfold ring_ids. rewrite Hnil. apply size_empty. }
  unfold get_nodes_for_key. destruct (_ring r) as [|e0 rest] eqn:Hring; [done|].
  rewrite <-Hring in *. rewrite Hlen.
  destruct (probe_starts_ok r key (length (_ring r)) (seq 0 (Z.to_nat multiprobe)))
    as (starts & -> & Hstarts); [by rewrite Hring|].
  simpl. rewrite length_seq in Hstarts.
  destruct (pylist.sorted Z.of_nat starts) as [|s sorted_starts] eqn:Hsorted.
  { apply (f_equal length) in Hsorted.
    rewrite (sorted_Permutation Z.of_nat starts) in Hsorted. simpl in Hsorted. lia. }
  simpl.
  destruct (walk_enough fuel r replicas s Hne Hfuel)
    as (out' & seen' & -> & (Hnd & _ & Hsub) & Hl); [lia|].
  simpl. destruct (Z.leb_spec replicas (Z.of_nat (length out'))); [|lia].
  exists out'. repeat split; try done.
  intros x Hx. rewrite <-(ring_ids_dom r Hinv), elem_of_list_to_set. by apply Hsub.
Qed.

(** With more replicas asked for than there are nodes, the inner loop
    never stops: it runs out of any fuel. *)
Lemma walk_diverges fuel r replicas i out seen :
  _ring r ≠ [] → walk_acc r out seen →
  (Z.of_nat (base.size (list_to_set (ring_ids r) : gset string)) < replicas)%Z →
  walk fuel r (length (_ring r)) replicas i out seen = OutOfFuel.
Proof.
  intros Hne Hacc Hrep. revert i out seen Hacc.
  assert (Hn : (0 <? length (_ring r)) = true).
  { apply Nat.ltb_lt. destruct (_ring r); [done|simpl; lia]. }
  assert (Hshort : ∀ out seen, walk_acc r out seen →
                     (Z.of_nat (length out) <? replicas)%Z = true).
  { intros out seen (Hnd & _ & Hsub). apply Z.ltb_lt.
    assert (Hall : (list_to_set out : gset string) ⊆ list_to_set (ring_ids r)).
    { intros x. rewrite !elem_of_list_to_set. apply Hsub. }
    apply subseteq_size in Hall. rewrite (size_list_to_set out) in Hall by done.
    lia. }
  induction fuel as [|fuel IH]; intros i out seen Hacc;
    rewrite walk_unfold, Hn, (Hshort out seen Hacc); simpl; [done|].
  destruct (ring_lookup_mod r i Hne) as [e He]. rewrite He.
  assert (Hel : e ∈ _ring r) by (by eapply list_elem_of_lookup_2).
  case_decide as Hseen; [by apply IH|].
  by apply IH, walk_acc_snoc.
Qed.

(** C2. On a non-empty ring that satisfies the invariants, with
    [multiprobe >= 1] and more replicas asked for than the ring has nodes,
    [get_nodes_for_key] does not return: it is still in its [while] loop
    after any number of iterations. *)
Theorem get_nodes_for_key_diverges fuel r key replicas multiprobe :
  ring_inv r → _ring r ≠ [] →
  (1 ≤ multiprobe)%Z → (Z.of_nat (size r) < replicas)%Z →
  get_nodes_for_key fuel r key replicas multiprobe = OutOfFuel.
Proof.
  intros Hinv Hne Hmp Hrep.
  pose proof (ring_ids_size r Hinv) as Hsize.
  pose proof (ring_inv_length r Hinv) as Hlen.
  unfold get_nodes_for_key. destruct (_ring r) as [|e0 rest] eqn:Hring; [done|].
  rewrite <-Hring in *. rewrite Hlen.
  destruct (probe_starts_ok r key (length (_ring r)) (seq 0 (Z.to_nat multiprobe)))
    as (starts & -> & Hstarts); [by rewrite Hring|].
  simpl. rewrite length_seq in Hstarts.
  destruct (pylist.sorted Z.of_nat starts) as [|s sorted_starts] eqn:Hsorted.
  { apply (f_equal length) in Hsorted.
    rewrite (sorted_Permutation Z.of_nat starts) in Hsorted. simpl in Hsorted. lia. }
  simpl. rewrite walk_diverges; [done|done|apply walk_acc_nil|lia].
Qed.

(** ** [remove_node] *)

(** C8. [remove_node] leaves the ring as it is when the id is unknown.
    When the id is present (in a ring that satisfies the invariants), the
    id-map loses the id, the ring is the old ring without the entries of
    that node, the token list is the list of its tokens, still sorted, and
    no lookup on the resulting ring returns the id. *)
Theorem remove_node_spec r node_id :
  ring_inv r →
  (_nodes r !! node_id = None → remove_node r node_id = r) ∧
  (is_Some (_nodes r !! node_id) →
   let r' := remove_node r node_id in
   _nodes r' = delete node_id (_nodes r) ∧
   _ring r' = filter (λ e, Node.id e.2 ≠ node_id) (_ring r) ∧
   _sorted_tokens r' = (_ring r').*1 ∧
   StronglySorted Z.le (_sorted_tokens r') ∧
   (∀ key, get_node r' key ≠ Ok (Some node_id)) ∧
   (∀ fuel key replicas multiprobe out,
      get_nodes_for_key fuel r' key replicas multiprobe = Ok out → node_id ∉ out)).
Proof.
  intros Hinv. split.
  - intros Hnone. unfold remove_node. by rewrite Hnone.
  - intros Hsome r'.
    pose proof (remove_node_ring r node_id Hinv Hsome) as Hring.
    pose proof (remove_node_inv r node_id Hinv) as Hinv'.
    fold r' in Hring, Hinv'.
    assert (Hids : node_id ∉ ring_ids r').
    { unfold ring_ids. rewrite Hring. intros (e & He & Hel)%list_elem_of_fmap.
      apply list_elem_of_filter in Hel as [Hne _]. by destruct Hne. }
    split.
    { subst r'. unfold remove_node. by destruct Hsome as [n ->]. }
    split; [done|]. split; [apply Hinv'|]. split; [apply Hinv'|]. split.
    + intros key Hget. destruct (decide (_ring r' = [])) as [He|Hne].
      * by rewrite (get_node_empty _ _ He) in Hget.
      * destruct (get_node_nonempty r' key Hinv' Hne) as (e & Hl & Hget').
        rewrite Hget' in Hget. injection Hget as Hid. apply Hids.
        apply list_elem_of_fmap. exists e. split; [done|].
        by eapply list_elem_of_lookup_2.
    + intros fuel key replicas multiprobe out Hout Hin.
      apply Hids. by eapply get_nodes_for_key_elem.
Qed.

(** ** The artifact rebalancer *)

(** A key whose blob is in none of the old hosts is skipped. *)
Lemma execute_absent fuel d fs key ft items rb hosts :
  placement_with_ring fuel d key rb = Ok hosts → read_old fs key hosts = None →
  execute fuel d fs ((key, ft) :: items) rb = execute fuel d fs items rb.
Proof. intros Hp Hr. simpl. rewrite Hp. simpl. by rewrite Hr. Qed.

Lemma execute_all_absent fuel d fs items rb :
  Forall (λ it, ∃ hosts, placement_with_ring fuel d it.1 rb = Ok hosts
                         ∧ read_old fs it.1 hosts = None) items →
  execute fuel d fs items rb = Ok ().
Proof.
  induction 1 as [|[key ft] items (hosts & Hp & Hr) _ IH]; [done|].
  by rewrite (execute_absent _ _ _ _ _ _ _ hosts).
Qed.

(** [read_old] returns a blob only if some old host has the file. *)
Lemma read_old_Some fs key hosts blob :
  read_old fs key hosts = Some blob →
  ∃ h, Some h ∈ hosts ∧ host_get fs h key = Some blob.
Proof.
  induction hosts as [|[h|] hosts IH]; simpl; [done| |].
  - destruct (host_get fs h key) as [b|] eqn:Hg.
    + intros [= <-]. exists h. split; [left|done].
    + intros (h' & Hin & Hg')%IH. exists h'. split; [by right|done].
  - intros (h' & Hin & Hg')%IH. exists h'. split; [by right|done].
Qed.

(** C9. When the blob of the first planned key is obtained from the old
    placement, [execute] does not write it anywhere: the lookup of
    [distribute] on the distributor raises [AttributeError], which ends
    the call. *)
Theorem execute_distribute_raises fuel d fs key ft items rb hosts blob :
  placement_with_ring fuel d key rb = Ok hosts →
  read_old fs key hosts = Some blob →
  execute fuel d fs ((key, ft) :: items) rb = Raise AttributeError.
Proof. intros Hp Hr. simpl. rewrite Hp. simpl. by rewrite Hr. Qed.

(** ** The example rings *)

Lemma ring_A_inv : ring_inv ring_A.
Proof. apply add_node_inv, init_inv. Qed.

Lemma ring_AB_inv : ring_inv ring_AB.
Proof. apply add_node_inv, ring_A_inv. Qed.

(** * Further properties of the ring *)

(** ** The owner as a scan of the ring *)

Lemma upper_bound_first_above h (l : list (Z * Node.t)) :
  match first_above h l with
  | Some e => l !! upper_bound h l.*1 = Some e ∧ upper_bound h l.*1 < length l
  | None => upper_bound h l.*1 = length l
  end.
Proof.
  induction l as [|e l IH]; simpl; [done|].
  destruct (Z.ltb_spec h e.1); simpl; [split; [done|apply Nat.lt_0_succ]|].
  destruct (first_above h l); [|by f_equal].
  destruct IH as [Hl Hlt]. split; [done|]. by apply ->Nat.succ_lt_mono.
Qed.

Lemma get_node_owner_entry r key :
  ring_inv r →
  get_node r key
  = Ok ((λ e, Node.id e.2) <$> owner_entry (key_hash key (_seed r)) (_ring r)).
Proof.
  intros Hinv. destruct (decide (_ring r = [])) as [Hnil|Hne].
  { rewrite (get_node_empty r key Hnil), Hnil. done. }
  destruct (get_node_nonempty r key Hinv Hne) as (e & He & ->).
  do 2 f_equal. unfold owner_entry.
  pose proof (upper_bound_first_above (key_hash key (_seed r)) (_ring r)) as Hub.
  rewrite <-(inv_tokens r Hinv) in Hub.
  destruct (first_above _ _) as [e'|].
  - destruct Hub as [Hl Hlt]. rewrite Nat.mod_small in He by done.
    rewrite He in Hl. by injection Hl as ->.
  - rewrite Hub, Nat.Div0.mod_same in He. by rewrite head_lookup, He.
Qed.

Lemma first_above_filter (P : Z * Node.t → Prop) `{!∀ e, Decision (P e)} h l :
  match first_above h l with
  | Some e => P e → first_above h (filter P l) = Some e
  | None => first_above h (filter P l) = None
  end.
Proof.
  induction l as [|e l IH]; simpl; [done|].
  rewrite filter_cons.
  destruct (Z.ltb_spec h e.1) as [Hlt|Hge].
  - intros He. rewrite decide_True by done. simpl.
    by destruct (Z.ltb_spec h e.1); [|lia].
  - destruct (decide (P e)); simpl; [|done].
    by destruct (Z.ltb_spec h e.1); [lia|].
Qed.

(** Dropping entries from a ring does not change the owner of a hash, as
    long as the owner itself is kept. *)
Lemma owner_entry_filter (P : Z * Node.t → Prop) `{!∀ e, Decision (P e)} h l e :
  owner_entry h l = Some e → P e → owner_entry h (filter P l) = Some e.
Proof.
  unfold owner_entry. pose proof (first_above_filter P h l) as Hf.
  destruct (first_above h l) as [e'|].
  - intros [= ->] He. by rewrite (Hf He).
  - rewrite Hf. destruct l as [|e0 l]; simpl; [done|].
    intros [= ->] He. by rewrite filter_cons, decide_True.
Qed.

Lemma insert_filter_out {A} (P : A → Prop) `{!∀ x, Decision (P x)} i x l :
  ¬ P x → filter P (pylist.insert i x l) = filter P l.
Proof.
  intros Hx. unfold pylist.insert.
  by rewrite filter_app, filter_cons_False, <-filter_app, take_drop.
Qed.

Lemma insert_vnodes_filter (P : Z * Node.t → Prop) `{!∀ e, Decision (P e)}
    node idxs r :
  (∀ t, ¬ P (t, node)) →
  filter P (_ring (insert_vnodes node idxs r)) = filter P (_ring r).
Proof.
  intros Hn. revert r. induction idxs as [|i idxs IH]; intros r; [done|].
  simpl. fold (insert_vnodes node idxs). rewrite IH. simpl.
  by apply insert_filter_out.
Qed.

(** The ring after [add_node] of a fresh id, without the entries of the new
    node, is the ring before, in the same order. *)
Lemma add_node_filter r node_id weight zone :
  ring_inv r → _nodes r !! node_id = None →
  filter (λ e, Node.id e.2 ≠ node_id) (_ring (add_node r node_id weight zone).1)
  = _ring r.
Proof.
  intros Hinv Hnone. unfold add_node. simpl.
  rewrite decide_False by (rewrite Hnone; by intros [? ?]). simpl.
  rewrite insert_vnodes_filter by (intros t; simpl; by intros []).
  simpl. apply filter_all, Forall_forall. intros e He.
  pose proof (inv_dom r Hinv e He). congruence.
Qed.

Lemma add_node_seed r node_id weight zone :
  _seed (add_node r node_id weight zone).1 = _seed r.
Proof.
  unfold add_node. simpl. case_decide; [done|].
  exact (proj1 (insert_vnodes_frame _ _ _)).
Qed.

Lemma add_node_owner r node_id weight zone key :
  ring_inv r → _nodes r !! node_id = None →
  get_node (add_node r node_id weight zone).1 key = get_node r key
  ∨ get_node (add_node r node_id weight zone).1 key = Ok (Some node_id).
Proof.
  intros Hinv Hnone.
  pose proof (add_node_inv r node_id weight zone Hinv) as Hinv'.
  pose proof (add_node_filter r node_id weight zone Hinv Hnone) as Hf.
  set (r' := (add_node r node_id weight zone).1) in *.
  assert (Hseed : _seed r' = _seed r) by apply add_node_seed.
  rewrite (get_node_owner_entry r' key Hinv'), (get_node_owner_entry r key Hinv).
  rewrite Hseed, <-Hf.
  destruct (owner_entry (key_hash key (_seed r)) (_ring r')) as [e|] eqn:Ho.
  - destruct (decide (Node.id e.2 = node_id)) as [<-|Hne]; [by right|].
    left. by rewrite (owner_entry_filter _ _ _ e Ho Hne).
  - left. unfold owner_entry in Ho.
    destruct (first_above _ _); [done|].
    destruct (_ring r'); [done|done].
Qed.

Lemma remove_node_owner r node_id key o :
  ring_inv r → get_node r key = Ok (Some o) → o ≠ node_id →
  get_node (remove_node r node_id) key = Ok (Some o).
Proof.
  intros Hinv Hget Hne.
  destruct (_nodes r !! node_id) as [n|] eqn:Hn.
  2:{ unfold remove_node. by rewrite Hn. }
  pose proof (remove_node_inv r node_id Hinv) as Hinv'.
  rewrite (get_node_owner_entry _ key Hinv').
  rewrite (remove_node_ring r node_id Hinv (mk_is_Some _ _ Hn)).
  assert (Hseed : _seed (remove_node r node_id) = _seed r)
    by (unfold remove_node; by rewrite Hn).
  rewrite Hseed. rewrite (get_node_owner_entry r key Hinv) in Hget.
  destruct (owner_entry (key_hash key (_seed r)) (_ring r)) as [e|] eqn:Ho;
    [|done].
  injection Hget as <-. by rewrite (owner_entry_filter _ _ _ e Ho Hne).
Qed.


(** X2. Minimal disruption on leave: [remove_node] changes the owner of no
    key that was owned by another node. *)
Theorem remove_node_keeps_other_owners r node_id key o :
  ring_inv r → get_node r key = Ok (Some o) → o ≠ node_id →
  get_node (remove_node r node_id) key = Ok (Some o).
Proof. apply remove_node_owner. Qed.

Lemma insert_vnodes_lock node idxs r : _lock (insert_vnodes node idxs r) = _lock r.
Proof.
  revert r. induction idxs as [|i idxs IH]; intros r; [done|].
  simpl. fold (insert_vnodes node idxs). by rewrite IH.
Qed.

Lemma add_node_fresh_fields r node_id weight zone :
  _nodes r !! node_id = None →
  let r' := (add_node r node_id weight zone).1 in
  _seed r' = _seed r ∧ _vn_per_weight r' = _vn_per_weight r ∧ _lock r' = _lock r ∧
  _nodes r' = <[node_id := Node.mk node_id weight zone None]> (_nodes r).
Proof.
  intros Hnone. unfold add_node. simpl.
  rewrite decide_False by (rewrite Hnone; by intros [? ?]). simpl.
  pose proof (insert_vnodes_frame (Node.mk node_id weight zone None)
                (seq 0 (Z.to_nat (_vn_count (set_node r (Node.mk node_id weight zone None))
                                    (Node.mk node_id weight zone None))))
                (set_node r (Node.mk node_id weight zone None)))
    as (Hseed & Hvn & Hnodes & _).
  split; [exact Hseed|]. split; [exact Hvn|].
  split; [exact (insert_vnodes_lock _ _ (set_node r _))|exact Hnodes].
Qed.

Lemma ring_eq r1 r2 :
  _seed r1 = _seed r2 → _vn_per_weight r1 = _vn_per_weight r2 → _lock r1 = _lock r2 →
  _ring r1 = _ring r2 → _sorted_tokens r1 = _sorted_tokens r2 → _nodes r1 = _nodes r2 →
  r1 = r2.
Proof. destruct r1, r2. simpl. congruence. Qed.

(** X3. Round trip: adding a fresh node and removing it again gives back
    the ring as it was, field by field. *)
Theorem add_then_remove_restores r node_id weight zone :
  ring_inv r → _nodes r !! node_id = None →
  remove_node (add_node r node_id weight zone).1 node_id = r.
Proof.
  intros Hinv Hnone.
  pose proof (add_node_filter r node_id weight zone Hinv Hnone) as Hf.
  destruct (add_node_fresh_fields r node_id weight zone Hnone)
    as (Hseed & Hvn & Hlock & Hnodes).
  set (r' := (add_node r node_id weight zone).1) in *.
  assert (Hsorted : pylist.sorted fst (_ring r) = _ring r).
  { apply sorted_id. rewrite <-(inv_tokens r Hinv). apply Hinv. }
  unfold remove_node. rewrite Hnodes, lookup_insert_eq.
  apply ring_eq; simpl; try done.
  - by rewrite Hf.
  - by rewrite Hf, Hsorted, (inv_tokens r Hinv).
  - by rewrite delete_insert_id.
Qed.

Lemma ring_empty_iff r : ring_inv r → (_ring r = [] ↔ size r = 0).
Proof.
  intros Hinv. rewrite <-(ring_ids_size r Hinv). split.
  - intros Hnil. unfold ring_ids. rewrite Hnil. apply size_empty.
  - intros Hz. apply size_empty_inv in Hz.
    destruct (_ring r) as [|e l] eqn:Hr; [done|].
    exfalso. apply (not_elem_of_empty (C := gset string) (Node.id e.2)).
    rewrite <-Hz. apply elem_of_list_to_set. unfold ring_ids. rewrite Hr. left.
Qed.

(** X4. On a ring that satisfies the invariants, [get_node] returns [None]
    exactly when no node is registered ([size() = 0]), and any id it returns
    is the id of a registered node. *)
Theorem get_node_registered r key :
  ring_inv r →
  (get_node r key = Ok None ↔ size r = 0) ∧
  (∀ o, get_node r key = Ok (Some o) → o ∈ dom (_nodes r)).
Proof.
  intros Hinv. rewrite (get_node_owner_entry r key Hinv). split.
  - rewrite <-(ring_empty_iff r Hinv). unfold owner_entry. split.
    + destruct (first_above _ _); [done|]. by destruct (_ring r).
    + by intros ->.
  - intros o Ho. rewrite <-(ring_ids_dom r Hinv), elem_of_list_to_set.
    destruct (owner_entry _ _) as [e|] eqn:He; [|done].
    injection Ho as <-. apply list_elem_of_fmap. exists e. split; [done|].
    unfold owner_entry in He. destruct (first_above _ _) as [e'|] eqn:Hfa.
    + injection He as ->. clear -Hfa.
      induction (_ring r) as [|e0 l IH]; simpl in *; [done|].
      destruct (_ <? _)%Z; [injection Hfa as ->; left|right; auto].
    + destruct (_ring r); [done|]. injection He as ->. left.
Qed.

(** X5. [remove_node] of a registered node takes exactly its
    [virtual_nodes_per_weight * max(1, weight)] entries out of the ring and
    one id out of the id-map. *)
Theorem remove_node_token_count r node_id n :
  ring_inv r → _nodes r !! node_id = Some n →
  (Z.of_nat (length (_ring (remove_node r node_id))) + _vn_count r n
   = Z.of_nat (length (_ring r)))%Z ∧
  S (size (remove_node r node_id)) = size r.
Proof.
  intros Hinv Hn. split.
  - rewrite (remove_node_ring r node_id Hinv (mk_is_Some _ _ Hn)).
    rewrite <-(inv_count r Hinv node_id n Hn).
    rewrite <-(filter_app_complement (λ e : Z * Node.t, Node.id e.2 = node_id) (_ring r))
      at 3.
    rewrite length_app. lia.
  - unfold size, remove_node. rewrite Hn. simpl.
    rewrite map_size_delete, Hn.
    assert (base.size (_nodes r) ≠ 0); [|lia].
    intros Hz%map_size_empty_iff. by rewrite Hz in Hn.
Qed.

(** ** Replica selection: the first replica and the empty results *)

Lemma walk_prefix fuel r n replicas i out seen out' seen' :
  walk fuel r n replicas i out seen = Ok (out', seen') → out `prefix_of` out'.
Proof.
  revert i out seen.
  induction fuel as [|fuel IH]; intros i out seen; rewrite walk_unfold;
    destruct (_ && _); try done; try (by intros [= <- <-]).
  destruct (_ring r !! (i `mod` n)) as [e|]; [|done].
  case_decide; [apply IH|].
  intros Hw%IH. by eapply prefix_app_l.
Qed.

(** X6. With [multiprobe = 1] and [1 <= replicas <= size()], the first id
    that [get_nodes_for_key(key, ...)] returns is the owner of the string
    [key + "|0"], the probe that the method hashes, not of [key] itself. *)
Theorem get_nodes_for_key_primary fuel r key replicas :
  ring_inv r → length (_ring r) ≤ fuel → (1 ≤ replicas ≤ Z.of_nat (size r))%Z →
  ∃ x rest, get_nodes_for_key fuel r key replicas 1 = Ok (x :: rest) ∧
            get_node r (key +:+ "|0") = Ok (Some x).
Proof.
  intros Hinv Hfuel Hrep.
  pose proof (ring_inv_length r Hinv) as Hlen.
  assert (Hne : _ring r ≠ []).
  { intros Hnil%(ring_empty_iff r Hinv). lia. }
  destruct (get_node_nonempty r (key +:+ "|0") Hinv Hne) as (e & He & Hget).
  rewrite <-(bisect_upper_bound _ _ (inv_sorted r Hinv)) in He.
  unfold get_nodes_for_key. destruct (_ring r) as [|e0 rest0] eqn:Hring; [done|].
  rewrite <-Hring in *. rewrite Hlen.
  change (seq 0 (Z.to_nat 1)) with [0]. cbn [probe_starts].
  destruct (Nat.eqb_spec (length (_ring r)) 0) as [Hz|_]; [by rewrite Hring in Hz|].
  change (key +:+ "|" +:+ pretty 0) with (key +:+ "|0").
  cbn [mbind result_bind mret result_ret pylist.sorted foldr pylist.insort walk_starts].
  set (s := _ `mod` _) in *.
  destruct (walk_enough fuel r replicas s Hne Hfuel)
    as (out' & seen' & Hw & _ & Hl);
    [rewrite (ring_ids_size r Hinv); lia|].
  rewrite Hw. cbn [mbind result_bind].
  destruct (Z.leb_spec replicas (Z.of_nat (length out'))); [|lia].
  revert Hw. rewrite walk_unfold.
  destruct (Z.ltb_spec (Z.of_nat (length (@nil string))) replicas) as [_|Hge];
    [|simpl in Hge; lia].
  destruct (Nat.ltb_spec 0 (length (_ring r))) as [_|Hz];
    [|rewrite Hring in Hz; simpl in Hz; lia].
  cbn [andb]. destruct fuel as [|fuel]; [done|].
  subst s. rewrite Nat.Div0.mod_mod, He.
  rewrite decide_False by apply not_elem_of_empty.
  intros [rest ->]%walk_prefix. exists (Node.id e.2), rest. by split.
Qed.

(** X7. [get_nodes_for_key] returns the empty list, whatever the key, on an
    empty ring, when [multiprobe <= 0] (no probe, so no start to walk from,
    even if replicas were asked for), and when [replicas <= 0]. *)
Theorem get_nodes_for_key_empty_result fuel r key replicas multiprobe :
  ring_inv r →
  _ring r = [] ∨ (multiprobe ≤ 0)%Z ∨ (replicas ≤ 0)%Z →
  get_nodes_for_key fuel r key replicas multiprobe = Ok [].
Proof.
  intros Hinv Hcase. unfold get_nodes_for_key.
  destruct (_ring r) as [|e0 rest0] eqn:Hring; [done|].
  destruct Hcase as [?|[Hmp|Hrep]]; [done| |].
  - by replace (Z.to_nat multiprobe) with 0 by lia.
  - destruct (probe_starts_ok r key (length (_sorted_tokens r))
                (seq 0 (Z.to_nat multiprobe))) as (starts & -> & _).
    { rewrite (ring_inv_length r Hinv), Hring. done. }
    cbn [mbind result_bind].
    destruct (pylist.sorted Z.of_nat starts) as [|s ss]; [done|].
    cbn [walk_starts]. rewrite walk_unfold.
    destruct (Z.ltb_spec (Z.of_nat (length (@nil string))) replicas) as [Hlt|_];
      [simpl in Hlt; lia|].
    cbn [andb mbind result_bind].
    by destruct (Z.leb_spec replicas (Z.of_nat (length (@nil string))));
      [|simpl in *; lia].
Qed.

(** X8. Tie-break of [_insert_token]: on a ring that satisfies the
    invariants the new entry sits at the [bisect_left] index, every token
    before it is strictly smaller and every entry after it has a token at
    least as large, so it precedes the existing entries with an equal
    token. *)
Theorem insert_token_before_equals r token node :
  ring_inv r →
  let idx := bisect.bisect_left (_sorted_tokens r) token in
  let r' := _insert_token r token node in
  _ring r' !! idx = Some (token, node) ∧
  (∀ i e, i < idx → _ring r' !! i = Some e → (e.1 < token)%Z) ∧
  (∀ i e, idx < i → _ring r' !! i = Some e → (token ≤ e.1)%Z).
Proof.
  intros Hinv idx r'.
  destruct (bisect_left_spec (_sorted_tokens r) token (inv_sorted r Hinv))
    as (Hle & Hlt & Hge).
  subst r' idx. cbn [_insert_token _ring]. unfold pylist.insert.
  set (idx := bisect.bisect_left _ _) in *.
  rewrite (inv_tokens r Hinv) in Hle, Hlt, Hge.
  rewrite length_fmap in Hle.
  rewrite <-fmap_take, Forall_fmap in Hlt. rewrite <-fmap_drop, Forall_fmap in Hge.
  assert (Htake : length (take idx (_ring r)) = idx) by (by apply length_take_le).
  split; [|split].
  - by rewrite list_lookup_middle.
  - intros i e Hi He. rewrite lookup_app_l in He by (rewrite Htake; lia).
    by apply (Forall_lookup_1 _ _ _ _ Hlt He).
  - intros i e Hi He. rewrite lookup_app_r in He by (rewrite Htake; lia).
    rewrite Htake in He.
    destruct (i - idx) as [|j] eqn:Hj; [lia|]. simpl in He.
    by apply (Forall_lookup_1 _ _ _ _ Hge He).
Qed.

(** ** The planner on a join, on a leave, and without a change *)

Lemma plan_moved_entries keys r1 r2 :
  ring_inv r1 → ring_inv r2 →
  ∃ plan, plan_moved keys r1 r2 = Ok plan ∧
    ∀ k b a, plan !! k = Some (b, a) →
      k ∈ keys ∧ get_node r1 k = Ok b ∧ get_node r2 k = Ok a ∧ b ≠ a.
Proof.
  intros H1 H2.
  destruct (plan_moved_loop_spec keys r1 r2 ∅ H1 H2) as (plan & Hplan & Hlook).
  exists plan. split; [done|]. intros k b a Hk.
  destruct (Hlook k) as (b' & a' & Hb & Ha & Heq). rewrite Hk in Heq.
  case_decide as Hd; [|by rewrite lookup_empty in Heq].
  injection Heq as -> ->. by destruct Hd.
Qed.

Lemma plan_join_entries keys r node_id weight zone :
  ring_inv r → _nodes r !! node_id = None →
  ∃ plan, plan_moved keys r (add_node r node_id weight zone).1 = Ok plan ∧
    ∀ k b a, plan !! k = Some (b, a) → a = Some node_id ∧ b ≠ Some node_id.
Proof.
  intros Hinv Hnone.
  destruct (plan_moved_entries keys r (add_node r node_id weight zone).1 Hinv
              (add_node_inv r node_id weight zone Hinv)) as (plan & Hplan & Hent).
  exists plan. split; [done|]. intros k b a Hk.
  destruct (Hent k b a Hk) as (_ & Hb & Ha & Hne).
  destruct (add_node_owner r node_id weight zone k Hinv Hnone) as [Heq|Heq];
    rewrite Ha in Heq.
  - rewrite Hb in Heq. by injection Heq as ->.
  - injection Heq as ->. split; [done|]. congruence.
Qed.

(** X9. The plan of a join: between a ring and the same ring after
    [add_node] of a fresh id, every planned key moves to the new node, from
    another owner. *)
Theorem plan_after_join keys r node_id weight zone :
  ring_inv r → _nodes r !! node_id = None →
  ∃ plan, plan_moved keys r (add_node r node_id weight zone).1 = Ok plan ∧
    ∀ k b a, plan !! k = Some (b, a) → a = Some node_id ∧ b ≠ Some node_id.
Proof. apply plan_join_entries. Qed.

(** X10. The plan of a leave: between a ring and the same ring after
    [remove_node(id)], every planned key moves away from [id]; the keys of
    the other nodes are not in the plan. *)
Theorem plan_after_leave keys r node_id :
  ring_inv r →
  ∃ plan, plan_moved keys r (remove_node r node_id) = Ok plan ∧
    ∀ k b a, plan !! k = Some (b, a) → b = Some node_id ∧ a ≠ Some node_id.
Proof.
  intros Hinv.
  destruct (plan_moved_entries keys r (remove_node r node_id) Hinv
              (remove_node_inv r node_id Hinv)) as (plan & Hplan & Hent).
  exists plan. split; [done|]. intros k b a Hk.
  destruct (Hent k b a Hk) as (_ & Hb & Ha & Hne).
  destruct b as [o|].
  - destruct (decide (o = node_id)) as [->|Ho]; [split; [done|congruence]|].
    rewrite (remove_node_owner r node_id k o Hinv Hb Ho) in Ha. congruence.
  - exfalso. apply Hne.
    assert (Hnil : _ring r = []).
    { destruct (decide (_ring r = [])) as [|Hr]; [done|].
      destruct (get_node_nonempty r k Hinv Hr) as (e & _ & Hg). congruence. }
    assert (Hnil' : _ring (remove_node r node_id) = []).
    { unfold remove_node. destruct (_nodes r !! node_id); [|done].
      simpl. by rewrite Hnil. }
    rewrite (get_node_empty _ k Hnil') in Ha. congruence.
Qed.

(** X11. Nothing to move: the plan between a ring and itself is empty. *)
Theorem plan_moved_same_ring keys r : ring_inv r → plan_moved keys r r = Ok ∅.
Proof.
  intros Hinv. unfold plan_moved.
  generalize (∅ : gmap string (option string * option string)).
  induction keys as [|k keys IH]; intros moved; cbn [plan_moved_loop]; [done|].
  destruct (get_node_total r k Hinv) as [o ->]. cbn [mbind result_bind].
  rewrite decide_False by (by intros []). apply IH.
Qed.

(** ** [stats] of a plan *)

Lemma Counter_fold (c : gmap string nat) l x :
  foldl (λ c x, <[x := S (default 0 (c !! x))]> c) c l !! x
  = let n := length (filter (λ y, y = x) l) in
    if decide (n = 0) then c !! x else Some (default 0 (c !! x) + n).
Proof.
  revert c. induction l as [|y l IH]; intros c; [done|].
  cbn [foldl]. rewrite IH, filter_cons. cbn zeta.
  destruct (decide (y = x)) as [->|Hne].
  - rewrite lookup_insert_eq. cbn [length default].
    destruct (decide (S (length (filter (λ y, y = x) l)) = 0)) as [?|_]; [lia|].
    destruct (decide (length (filter (λ y, y = x) l) = 0)) as [->|_];
      unfold id; f_equal; lia.
  - by rewrite lookup_insert_ne.
Qed.

Lemma Counter_lookup l x :
  Counter l !! x
  = let n := length (filter (λ y, y = x) l) in if decide (n = 0) then None else Some n.
Proof. unfold Counter. rewrite Counter_fold. cbn zeta. by case_decide. Qed.

Lemma filter_omap_length {A} (f : A → option string) l x :
  length (filter (λ y, y = x) (omap f l)) = length (filter (λ a, f a = Some x) l).
Proof.
  induction l as [|a l IH]; [done|]. cbn [omap list_omap]. rewrite filter_cons.
  destruct (f a) as [y|] eqn:Hfa.
  - rewrite filter_cons. destruct (decide (y = x)) as [->|Hne].
    + rewrite decide_True by done. simpl. by rewrite IH.
    + rewrite decide_False by congruence. done.
  - by rewrite decide_False.
Qed.

(** X12. [stats]: the [by_to] (resp. [by_from]) counter maps an id to the
    number of planned keys whose new (resp. old) owner is that id, and has
    no entry for an id that owns none of them. *)
Theorem stats_counts (plan : gmap string (option string * option string)) node_id :
  stats_by_to plan !! node_id
  = (let n := length (filter (λ kv, kv.2.2 = Some node_id) (map_to_list plan)) in
     if decide (n = 0) then None else Some n) ∧
  stats_by_from plan !! node_id
  = (let n := length (filter (λ kv, kv.2.1 = Some node_id) (map_to_list plan)) in
     if decide (n = 0) then None else Some n).
Proof.
  unfold stats_by_to, stats_by_from.
  by rewrite !Counter_lookup, !filter_omap_length.
Qed.

(** X13. [stats] of the plan of a join: all the moved keys are counted for
    the new node, which is the only entry of [by_to] (none when nothing
    moved), and the new node has no entry in [by_from]. *)
Theorem stats_after_join keys r node_id weight zone :
  ring_inv r → _nodes r !! node_id = None →
  ∃ plan, plan_moved keys r (add_node r node_id weight zone).1 = Ok plan ∧
    stats_by_to plan = (if decide (plan = ∅) then ∅ else {[node_id := base.size plan]}) ∧
    stats_by_from plan !! node_id = None.
Proof.
  intros Hinv Hnone.
  destruct (plan_join_entries keys r node_id weight zone Hinv Hnone)
    as (plan & Hplan & Hent).
  exists plan. split; [done|].
  assert (Hall : ∀ kv, kv ∈ map_to_list plan →
                   kv.2.2 = Some node_id ∧ kv.2.1 ≠ Some node_id).
  { intros [k [b a]] Hkv%elem_of_map_to_list. by apply (Hent k b a). }
  split.
  - apply map_eq. intros x. unfold stats_by_to.
    rewrite Counter_lookup, filter_omap_length. cbn zeta.
    destruct (decide (x = node_id)) as [->|Hx].
    + rewrite filter_all by (apply Forall_forall; intros kv Hkv; by apply Hall).
      rewrite length_map_to_list.
      destruct (decide (plan = ∅)) as [->|Hne].
      * by rewrite map_size_empty.
      * rewrite lookup_singleton_eq. apply decide_False.
        by intros ?%map_size_empty_iff.
    + rewrite filter_none.
      2:{ apply Forall_forall. intros kv Hkv. destruct (Hall kv Hkv). congruence. }
      simpl. case_decide; [done|]. by rewrite lookup_singleton_ne.
  - unfold stats_by_from. rewrite Counter_lookup, filter_omap_length. cbn zeta.
    rewrite filter_none; [done|].
    apply Forall_forall. intros kv Hkv. by destruct (Hall kv Hkv).
Qed.

(** ** The artifact distributor *)

Lemma add_node_dom r node_id weight zone :
  dom (_nodes (add_node r node_id weight zone).1) = {[node_id]} ∪ dom (_nodes r).
Proof.
  destruct (_nodes r !! node_id) as [n|] eqn:Hn.
  - unfold add_node. simpl. rewrite decide_True by (by rewrite Hn).
    simpl. apply elem_of_dom_2 in Hn. apply set_eq. intros x.
    rewrite elem_of_union, elem_of_singleton. split; [by right|].
    by intros [->|?].
  - destruct (add_node_fresh_fields r node_id weight zone Hn) as (_ & _ & _ & ->).
    apply dom_insert_L.
Qed.


(** X14. [attach_host] with an id that is already in the ring is not
    atomic: the call raises [ValueError] and leaves the ring as it was, but
    the adapter registered under the id has already been replaced by the
    new one. *)
Theorem attach_host_duplicate d host_id host weight :
  is_Some (_nodes (ring d) !! host_id) →
  (attach_host d host_id host weight).2 = Raise ValueError ∧
  ring (attach_host d host_id host weight).1 = ring d ∧
  _hosts (attach_host d host_id host weight).1 !! host_id = Some host ∧
  (∀ j, j ≠ host_id →
        _hosts (attach_host d host_id host weight).1 !! j = _hosts d !! j).
Proof.
  intros Hin. unfold attach_host, add_node. simpl.
  rewrite decide_True by done. simpl.
  split; [done|]. split; [done|]. split; [apply lookup_insert_eq|].
  intros j Hj. by rewrite lookup_insert_ne.
Qed.


Lemma omap_all_Some {A B} (f : A → option B) l :
  Forall (λ x, is_Some (f x)) l →
  f <$> l = Some <$> omap f l ∧ length (omap f l) = length l.
Proof.
  induction 1 as [|x l [y Hy] _ [IH1 IH2]]; [done|].
  cbn [omap list_omap]. rewrite Hy. csimpl. rewrite Hy, IH1, IH2. done.
Qed.

(** X16. With the adapter map in step with a ring that satisfies the
    invariants, and [1 <= replication <= size()], [placement] returns
    exactly [replication] hosts (one pass over the ring is enough fuel), and
    they are the hosts [placement_with_ring] gives on the distributor's own
    ring. *)
Theorem placement_full fuel d key :
  hosts_in_sync d → ring_inv (ring d) → length (_ring (ring d)) ≤ fuel →
  (1 ≤ replication d ≤ Z.of_nat (size (ring d)))%Z →
  ∃ hs, placement fuel d key = Ok hs ∧
        Z.of_nat (length hs) = replication d ∧
        placement_with_ring fuel d key (ring d) = Ok (Some <$> hs).
Proof.
  intros Hsync Hinv Hfuel Hrep.
  destruct (get_nodes_for_key_enough_nodes fuel (ring d) key (replication d) 3
              Hinv Hfuel ltac:(lia) Hrep) as (out & Hout & _ & Hlen & Hdom).
  unfold placement, placement_with_ring. rewrite Hout. cbn [mbind result_bind].
  assert (Hall : Forall (λ nid, is_Some (_hosts d !! nid)) out).
  { apply Forall_forall. intros x Hx. apply elem_of_dom. rewrite Hsync. by apply Hdom. }
  rewrite (filter_all _ _ Hall).
  destruct (omap_all_Some (λ nid, _hosts d !! nid) out Hall) as [Hmap Hl].
  eexists. split; [done|]. split; [by rewrite Hl|by rewrite Hmap].
Qed.


(** ** The vector rebalancer *)



(** ** The in-memory cache node *)


Lemma od_get_None {W} k (d : list (string * W)) :
  OrderedDict.get k d = None ↔ Forall (λ kv, kv.1 ≠ k) d.
Proof.
  clear h64.
  induction d as [|[k' v] d IH]; simpl; [by split; [constructor|]|].
  case_decide as Hk.
  - split; [done|]. intros [Hne _]%Forall_cons. by destruct Hne.
  - rewrite IH, Forall_cons. simpl. tauto.
Qed.

Lemma od_get_app {W} k (d1 d2 : list (string * W)) :
  OrderedDict.get k (d1 ++ d2)
  = match OrderedDict.get k d1 with
    | Some v => Some v
    | None => OrderedDict.get k d2
    end.
Proof.
  induction d1 as [|[k' v] d1 IH]; simpl; [done|]. by case_decide.
Qed.

Lemma od_pop_Forall {W} k (d : list (string * W)) :
  Forall (λ kv, kv.1 ≠ k) (OrderedDict.pop k d).
Proof.
  apply Forall_forall. by intros kv [Hk _]%list_elem_of_filter.
Qed.

Lemma od_pop_absent {W} k (d : list (string * W)) :
  Forall (λ kv, kv.1 ≠ k) d → OrderedDict.pop k d = d.
Proof. apply filter_all. Qed.

Lemma od_pop_set_item {W} k (v : W) d :
  OrderedDict.pop k (OrderedDict.set_item k v d) = OrderedDict.pop k d.
Proof.
  unfold OrderedDict.pop. induction d as [|[k' v'] d IH]; simpl.
  - by rewrite filter_cons, decide_False by (simpl; by intros []).
  - case_decide as Hk.
    + subst k'. by rewrite !filter_cons, !decide_False by (simpl; by intros []).
    + by rewrite !filter_cons, !decide_True, IH by done.
Qed.

Lemma od_get_set_item {W} k (v : W) d :
  OrderedDict.get k (OrderedDict.set_item k v d) = Some v.
Proof.
  induction d as [|[k' v'] d IH]; simpl; [by rewrite decide_True|].
  case_decide as Hk; simpl; [by rewrite decide_True|by rewrite decide_False].
Qed.

Lemma od_move_set_item {W} k (v : W) d :
  OrderedDict.move_to_end k (OrderedDict.set_item k v d)
  = Some (OrderedDict.pop k d ++ [(k, v)]).
Proof.
  unfold OrderedDict.move_to_end. by rewrite od_get_set_item, od_pop_set_item.
Qed.

Lemma od_pop_length {W} k (v : W) d :
  NoDup d.*1 → OrderedDict.get k d = Some v →
  S (length (OrderedDict.pop k d)) = length d.
Proof.
  unfold OrderedDict.pop.
  induction d as [|[k' v'] d IH]; simpl; [done|]. intros [Hnot Hnd]%NoDup_cons.
  rewrite filter_cons. case_decide as Hk; simpl.
  - subst k'. intros _. rewrite decide_False by (by intros []).
    rewrite filter_all; [done|].
    apply Forall_forall. intros kv Hkv Heq. apply Hnot.
    apply list_elem_of_fmap. by exists kv.
  - intros Hget. rewrite decide_True by done. simpl. by rewrite IH.
Qed.

Lemma od_pop_NoDup {W} k (d : list (string * W)) :
  NoDup d.*1 → NoDup (OrderedDict.pop k d).*1.
Proof.
  intros Hnd. eapply sublist_NoDup; [exact Hnd|].
  apply fmap_sublist, sublist_filter.
Qed.

Lemma od_move_NoDup {W} k (v : W) (d : list (string * W)) :
  NoDup d.*1 → NoDup (OrderedDict.pop k d ++ [(k, v)]).*1.
Proof.
  intros Hnd. rewrite fmap_app. apply NoDup_app.
  split; [by apply od_pop_NoDup|]. split; [|apply NoDup_singleton].
  intros x (kv & -> & Hkv)%list_elem_of_fmap Hx.
  apply list_elem_of_singleton in Hx.
  by apply list_elem_of_filter in Hkv as [Hne _].
Qed.

Lemma evict_spec capacity (d : list (string * (pyfloat * option V))) :
  (0 ≤ capacity)%Z →
  cache._evict_if_needed capacity d
  = (drop (length d - Z.to_nat capacity) d, cache.Returns ()).
Proof.
  intros Hcap. induction d as [|kv d IH]; cbn [cache._evict_if_needed].
  - destruct (Z.ltb_spec capacity 0); [lia|]. by rewrite drop_nil.
  - destruct (Z.ltb_spec capacity (Z.of_nat (length (kv :: d)))) as [Hlt|Hge].
    + rewrite IH. cbn [length] in *.
      replace (S (length d) - Z.to_nat capacity)
        with (S (length d - Z.to_nat capacity)) by lia.
      done.
    + cbn [length] in *.
      by replace (S (length d) - Z.to_nat capacity) with 0 by lia.
Qed.

Lemma evict_negative capacity (d : list (string * (pyfloat * option V))) :
  (capacity < 0)%Z → cache._evict_if_needed capacity d = ([], cache.RaisesKeyError).
Proof.
  intros Hcap. induction d as [|kv d IH]; cbn [cache._evict_if_needed].
  - by destruct (Z.ltb_spec capacity 0); [|lia].
  - by destruct (Z.ltb_spec capacity (Z.of_nat (length (kv :: d)))); [|lia].
Qed.

Lemma store_with_store (n : cache.InMemoryCacheNode (V := V)) d :
  cache._store (cache.with_store n d) = d.
Proof. done. Qed.

Lemma capacity_with_store (n : cache.InMemoryCacheNode (V := V)) d :
  cache._capacity (cache.with_store n d) = cache._capacity n.
Proof. done. Qed.

(** The store after a [set], for a capacity that is not negative. *)
Lemma set_store (n : cache.InMemoryCacheNode (V := V)) k v ttl now :
  (0 ≤ cache._capacity n)%Z →
  let l := OrderedDict.pop k (cache._store n) ++ [(k, (cache.expiry now ttl, v))] in
  cache.set n k v ttl now
  = (cache.with_store n (drop (length l - Z.to_nat (cache._capacity n)) l),
     cache.Returns ()).
Proof.
  intros Hcap l. unfold cache.set. rewrite od_move_set_item.
  fold l. by rewrite (evict_spec _ _ Hcap).
Qed.

(** X19. LRU with a bound: with a capacity [>= 0], [set(k, v, ttl)] returns
    normally; the new store is the old one without [k], followed by the new
    entry of [k], cut down from the front (the least recently used end) to
    the [capacity] most recent entries, so it never holds more than
    [capacity] items. *)
Theorem set_keeps_most_recent (n : cache.InMemoryCacheNode (V := V)) k v ttl now :
  (0 ≤ cache._capacity n)%Z →
  let l := OrderedDict.pop k (cache._store n) ++ [(k, (cache.expiry now ttl, v))] in
  cache.set n k v ttl now
  = (cache.with_store n (drop (length l - Z.to_nat (cache._capacity n)) l),
     cache.Returns ()) ∧
  (Z.of_nat (length (cache._store (cache.set n k v ttl now).1)) ≤ cache._capacity n)%Z.
Proof.
  intros Hcap l. pose proof (set_store n k v ttl now Hcap) as Hset.
  fold l in Hset. split; [done|]. rewrite Hset. simpl. rewrite length_drop. lia.
Qed.

Lemma set_store_negative (n : cache.InMemoryCacheNode (V := V)) k v ttl now :
  (cache._capacity n < 0)%Z →
  cache.set n k v ttl now = (cache.with_store n [], cache.RaisesKeyError).
Proof.
  intros Hcap. unfold cache.set. rewrite od_move_set_item.
  by rewrite (evict_negative _ _ Hcap).
Qed.

(** X20. With a negative capacity every [set] empties the store and raises
    the [KeyError] of [popitem] on an empty dict. *)
Theorem set_negative_capacity (n : cache.InMemoryCacheNode (V := V)) k v ttl now :
  (cache._capacity n < 0)%Z →
  cache.set n k v ttl now = (cache.with_store n [], cache.RaisesKeyError).
Proof. apply set_store_negative. Qed.

(** X21. Round trip: with a capacity [>= 1], a [get(k)] that follows
    [set(k, v, ttl)] returns [v], provided the entry has not expired at the
    time of the read. *)
Theorem set_then_get (n : cache.InMemoryCacheNode (V := V)) k v ttl t0 t1 :
  (1 ≤ cache._capacity n)%Z →
  cache.expired (cache.expiry t0 ttl) t1 = false →
  (cache.get (cache.set n k v ttl t0).1 k t1).2 = cache.Returns v.
Proof.
  intros Hcap Hexp. rewrite set_store by lia. cbn [fst cache.with_store].
  set (e := (cache.expiry t0 ttl, v)).
  set (d := OrderedDict.pop k (cache._store n)).
  rewrite length_app. cbn [length].
  rewrite drop_app_le by lia.
  unfold cache.get. rewrite !store_with_store.
  assert (Hget : OrderedDict.get k (drop (length d + 1 - Z.to_nat (cache._capacity n)) d
                                      ++ [(k, e)]) = Some e).
  { rewrite od_get_app.
    rewrite (proj2 (od_get_None k _)) by (apply Forall_drop, od_pop_Forall).
    simpl. by rewrite decide_True. }
  unfold OrderedDict.move_to_end. rewrite Hget. subst e. cbn beta iota.
  by rewrite Hexp.
Qed.

(** X22. Recency: on a full node of capacity [>= 2] with distinct keys, a
    key that has just been read (a hit) survives the [set] of a new key: the
    entry evicted is another, older one, and the node stays full. *)
Theorem get_protects_from_eviction (n : cache.InMemoryCacheNode (V := V))
    k e val t1 k' v ttl t2 :
  NoDup (cache._store n).*1 →
  Z.of_nat (length (cache._store n)) = cache._capacity n → (2 ≤ cache._capacity n)%Z →
  OrderedDict.get k (cache._store n) = Some (e, val) → cache.expired e t1 = false →
  k' ∉ (cache._store n).*1 →
  let n1 := (cache.get n k t1).1 in
  let n2 := (cache.set n1 k' v ttl t2).1 in
  OrderedDict.get k (cache._store n2) = Some (e, val) ∧
  OrderedDict.get k' (cache._store n2) = Some (cache.expiry t2 ttl, v) ∧
  length (cache._store n2) = length (cache._store n).
Proof.
  intros Hnd Hfull Hcap Hget Hexp Hk' n1 n2.
  assert (Hn1 : n1 = cache.with_store n (OrderedDict.pop k (cache._store n) ++ [(k, (e, val))])).
  { subst n1. unfold cache.get, OrderedDict.move_to_end. by rewrite Hget, Hexp. }
  pose proof (od_pop_length k _ _ Hnd Hget) as Hlen.
  assert (Hkk' : k ≠ k').
  { intros <-.
    assert (OrderedDict.get k (cache._store n) = None) as Hnone; [|congruence].
    apply od_get_None, Forall_forall. intros kv Hkv Heq. apply Hk'.
    apply list_elem_of_fmap. by exists kv. }
  assert (Hpop' : OrderedDict.pop k' (cache._store n1) = cache._store n1).
  { rewrite Hn1, store_with_store. apply od_pop_absent.
    apply Forall_app. split.
    - apply Forall_forall. intros kv [_ Hkv]%list_elem_of_filter Heq.
      apply Hk'. apply list_elem_of_fmap. by exists kv.
    - by constructor. }
  subst n2. rewrite set_store by (rewrite Hn1, capacity_with_store; lia).
  cbn [fst]. rewrite store_with_store, Hpop'.
  rewrite Hn1, store_with_store, capacity_with_store.
  set (d := OrderedDict.pop k (cache._store n)) in *.
  rewrite !length_app. cbn [length].
  replace (length d + 1 + 1 - Z.to_nat (cache._capacity n)) with 1 by lia.
  destruct d as [|kv0 d0] eqn:Hd; [simpl in Hlen; lia|].
  cbn [app drop]. rewrite drop_0.
  assert (Hd0 : Forall (λ kv : string * (pyfloat * option V), kv.1 ≠ k) d0).
  { pose proof (od_pop_Forall k (cache._store n)) as Hf. fold d in Hf.
    rewrite Hd in Hf. by apply Forall_cons in Hf as [_ ?]. }
  assert (Hd0' : Forall (λ kv : string * (pyfloat * option V), kv.1 ≠ k') d0).
  { apply Forall_forall. intros kv Hkv Heq. apply Hk'.
    apply list_elem_of_fmap. exists kv. split; [done|].
    assert (Hin : kv ∈ d) by (rewrite Hd; by right).
    subst d. by apply list_elem_of_filter in Hin as [_ ?]. }
  split; [|split].
  - rewrite !od_get_app, (proj2 (od_get_None k d0) Hd0). simpl.
    by rewrite decide_True.
  - rewrite !od_get_app, (proj2 (od_get_None k' d0) Hd0'). simpl.
    by rewrite decide_False, decide_True.
  - rewrite !length_app. simpl in *. lia.
Qed.

(** X23. Distinct keys are kept distinct by [get] and by [set]. *)
Theorem store_keys_distinct (n : cache.InMemoryCacheNode (V := V)) k v ttl now :
  NoDup (cache._store n).*1 →
  NoDup (cache._store (cache.get n k now).1).*1 ∧
  NoDup (cache._store (cache.set n k v ttl now).1).*1.
Proof.
  intros Hnd. split.
  - unfold cache.get, OrderedDict.move_to_end.
    destruct (OrderedDict.get k (cache._store n)) as [[e val]|]; [|done].
    destruct (cache.expired e now); simpl; [by apply od_pop_NoDup|].
    by apply od_move_NoDup.
  - destruct (Z.le_gt_cases 0 (cache._capacity n)) as [Hcap|Hcap].
    + rewrite set_store by done. simpl.
      eapply sublist_NoDup; [by eapply od_move_NoDup|].
      apply fmap_sublist, sublist_drop.
    + rewrite set_store_negative by lia. simpl. constructor.
Qed.

(** X24. [get] never serves an expired entry: a value is returned only for
    a stored entry that has not expired, and the read of an expired entry
    returns [None] and deletes it. *)
Theorem get_expiry (n : cache.InMemoryCacheNode (V := V)) k now :
  (∀ x, (cache.get n k now).2 = cache.Returns (Some x) →
        ∃ e, OrderedDict.get k (cache._store n) = Some (e, Some x)
             ∧ cache.expired e now = false) ∧
  (∀ e val, OrderedDict.get k (cache._store n) = Some (e, val) →
            cache.expired e now = true →
            (cache.get n k now).2 = cache.Returns None ∧
            OrderedDict.get k (cache._store (cache.get n k now).1) = None).
Proof.
  unfold cache.get, OrderedDict.move_to_end. split.
  - intros x. destruct (OrderedDict.get k (cache._store n)) as [[e val]|]; [|done].
    destruct (cache.expired e now) eqn:He; [done|].
    intros [= ->]. eauto.
  - intros e val -> ->. split; [done|]. simpl.
    apply od_get_None, od_pop_Forall.
Qed.


(** ** Replica selection as a clockwise scan *)

Lemma first_occurrences_filter (P : string → Prop) `{!∀ x, Decision (P x)} l :
  first_occurrences (filter P l) = filter P (first_occurrences l).
Proof.
  clear h64.
  induction l as [|x l IH]; [done|]. rewrite filter_cons. cbn [first_occurrences].
  destruct (decide (P x)) as [Hx|Hx].
  - cbn [first_occurrences]. rewrite filter_cons_True by done. f_equal.
    rewrite IH, !list_filter_filter. apply list_filter_iff. tauto.
  - rewrite filter_cons_False by done. rewrite IH, list_filter_filter.
    apply list_filter_iff. intros y. split; [|tauto].
    intros Hy. split; [done|]. by intros ->.
Qed.

Lemma first_occurrences_elem l x : x ∈ first_occurrences l ↔ x ∈ l.
Proof.
  clear h64.
  induction l as [|y l IH]; [done|]. cbn [first_occurrences].
  rewrite !elem_of_cons, list_elem_of_filter, IH.
  destruct (decide (x = y)); tauto.
Qed.

Lemma first_occurrences_NoDup l : NoDup (first_occurrences l).
Proof.
  induction l as [|y l IH]; [constructor|]. cbn [first_occurrences].
  constructor; [|by apply NoDup_filter].
  by intros [Hne _]%list_elem_of_filter.
Qed.

Lemma first_occurrences_app l1 l2 :
  first_occurrences (l1 ++ l2)
  = first_occurrences l1 ++ filter (λ y, y ∉ l1) (first_occurrences l2).
Proof.
  clear h64.
  induction l1 as [|x l1 IH]; cbn [app first_occurrences].
  - symmetry. apply filter_all, Forall_forall. intros y _. apply not_elem_of_nil.
  - f_equal. rewrite IH, filter_app. f_equal.
    rewrite list_filter_filter. apply list_filter_iff. intros y.
    rewrite not_elem_of_cons. tauto.
Qed.

(** What the loop collects from a list: the accumulator, then the first
    occurrences of the new ids, up to [replicas] in all. *)
Lemma collect_first_occurrences replicas l out :
  (Z.of_nat (length out) ≤ replicas)%Z →
  collect replicas l out
  = out ++ take (Z.to_nat replicas - length out)
             (first_occurrences (filter (λ y, y ∉ out) l)).
Proof.
  clear h64.
  revert out. induction l as [|x l IH]; intros out Hlen; cbn [collect].
  - change (filter (λ y, y ∉ out) []) with (@nil string). cbn [first_occurrences].
    by rewrite take_nil, app_nil_r.
  - destruct (Z.ltb_spec (Z.of_nat (length out)) replicas) as [Hlt|Hge].
    2:{ replace (Z.to_nat replicas - length out) with 0 by lia.
        by rewrite take_0, app_nil_r. }
    rewrite filter_cons. destruct (decide (x ∈ out)) as [Hin|Hnin].
    + rewrite decide_False by tauto. by apply IH.
    + rewrite decide_True by done. rewrite IH by (rewrite length_app; simpl; lia).
      rewrite length_app. cbn [length first_occurrences].
      replace (Z.to_nat replicas - length out)
        with (S (Z.to_nat replicas - (length out + 1))) by lia.
      cbn [take]. rewrite <-app_assoc. cbn [app]. do 3 f_equal.
      rewrite <-first_occurrences_filter, list_filter_filter. f_equal.
      apply list_filter_iff. intros y. rewrite elem_of_app, list_elem_of_singleton.
      tauto.
Qed.

Lemma visited_unfold ids n i fuel :
  visited ids n i (S fuel)
  = default "" (ids !! (i `mod` n)) :: visited ids n (i + 1) fuel.
Proof. done. Qed.

Lemma visited_length ids n i fuel : length (visited ids n i fuel) = fuel.
Proof.
  revert i. induction fuel as [|fuel IH]; intros i; [done|].
  cbn [visited length]. by rewrite IH.
Qed.

Lemma visited_lookup ids n i fuel k :
  k < fuel → visited ids n i fuel !! k = Some (default "" (ids !! ((i + k) `mod` n))).
Proof.
  revert i k. induction fuel as [|fuel IH]; intros i k Hk; [lia|].
  cbn [visited]. destruct k as [|k]; simpl.
  - by rewrite Nat.add_0_r.
  - rewrite IH by lia. by replace (i + 1 + k) with (i + S k) by lia.
Qed.

(** The first [n] steps from [s] read the ring from [s] to its end and then
    from its beginning up to [s]. *)
Lemma visited_rotation (ids : list string) s fuel :
  s < length ids → length ids ≤ fuel →
  take (length ids) (visited ids (length ids) s fuel) = drop s ids ++ take s ids.
Proof.
  intros Hs Hfuel. apply list_eq_same_length with (length ids).
  - rewrite length_app, length_drop, length_take. lia.
  - rewrite length_take, visited_length. lia.
  - intros k x y Hk. rewrite lookup_take_lt by done.
    rewrite visited_lookup by lia. intros [= <-].
    destruct (decide (s + k < length ids)) as [Hlt|Hge].
    + rewrite lookup_app_l by (rewrite length_drop; lia).
      rewrite lookup_drop, Nat.mod_small by done. intros ->. done.
    + rewrite lookup_app_r by (rewrite length_drop; lia).
      rewrite length_drop, lookup_take_lt by lia.
      replace ((s + k) `mod` length ids) with (k - (length ids - s)).
      { by intros ->. }
      replace (s + k) with (k - (length ids - s) + 1 * length ids) by lia.
      rewrite Nat.Div0.mod_add. symmetry. apply Nat.mod_small. lia.
Qed.

(** The walk returns what [collect] gathers from the ids it visits. *)
Lemma walk_collect fuel r replicas i out seen out' seen' :
  _ring r ≠ [] → walk_acc r out seen →
  walk fuel r (length (_ring r)) replicas i out seen = Ok (out', seen') →
  out' = collect replicas (visited (ring_ids r) (length (_ring r)) i fuel) out.
Proof.
  intros Hne.
  assert (Hn : (0 <? length (_ring r)) = true).
  { apply Nat.ltb_lt. destruct (_ring r); [done|simpl; lia]. }
  revert i out seen. induction fuel as [|fuel IH]; intros i out seen Hacc;
    rewrite walk_unfold, Hn, andb_true_r.
  - destruct (_ <? _)%Z; [done|]. by intros [= <- <-].
  - cbn [visited collect].
    destruct (Z.ltb_spec (Z.of_nat (length out)) replicas) as [Hlt|Hge];
      [|by intros [= <- <-]].
    destruct (ring_lookup_mod r i Hne) as [e He]. rewrite He.
    assert (Hid : ring_ids r !! (i `mod` length (_ring r)) = Some (Node.id e.2))
      by (unfold ring_ids; by rewrite list_lookup_fmap, He).
    rewrite Hid. cbn [default].
    destruct (decide (Node.id e.2 ∈ seen)) as [Hin|Hnin].
    + rewrite decide_True by (by apply Hacc). by apply IH.
    + rewrite decide_False by (intros Hx; by apply Hnin, Hacc).
      apply IH. apply walk_acc_snoc; [done| |done].
      by eapply list_elem_of_lookup_2.
Qed.

(** X25. What [get_nodes_for_key] returns, for [multiprobe >= 1] and
    [1 <= replicas <= size()]: with [s] the smallest of the probe start
    positions, the first [replicas] distinct node ids met when the ring is
    read clockwise from position [s] (to the end, then from the beginning).
    The other probe starts play no part in the result. *)
Theorem get_nodes_for_key_clockwise fuel r key replicas multiprobe :
  ring_inv r → length (_ring r) ≤ fuel →
  (1 ≤ multiprobe)%Z → (1 ≤ replicas ≤ Z.of_nat (size r))%Z →
  ∃ starts s rest,
    probe_starts r key (length (_sorted_tokens r)) (seq 0 (Z.to_nat multiprobe))
      = Ok starts ∧
    pylist.sorted Z.of_nat starts = s :: rest ∧ Forall (λ s', s ≤ s') rest ∧
    get_nodes_for_key fuel r key replicas multiprobe
    = Ok (take (Z.to_nat replicas)
            (first_occurrences (drop s (ring_ids r) ++ take s (ring_ids r)))).
Proof.
  intros Hinv Hfuel Hmp Hrep.
  pose proof (ring_ids_size r Hinv) as Hsize.
  pose proof (ring_inv_length r Hinv) as Hlen.
  assert (Hne : _ring r ≠ []).
  { intros Hnil%(ring_empty_iff r Hinv). lia. }
  assert (Hpos : length (_ring r) ≠ 0) by (by destruct (_ring r)).
  destruct (probe_starts_ok r key (length (_sorted_tokens r))
              (seq 0 (Z.to_nat multiprobe))) as (starts & Hstarts & Hsl);
    [by rewrite Hlen|].
  rewrite length_seq in Hsl.
  destruct (pylist.sorted Z.of_nat starts) as [|s rest] eqn:Hsorted.
  { apply (f_equal length) in Hsorted.
    rewrite (sorted_Permutation Z.of_nat starts) in Hsorted. simpl in Hsorted. lia. }
  exists starts, s, rest. split; [done|]. split; [done|]. split.
  { pose proof (sorted_sorted Z.of_nat starts) as Hs.
    rewrite Hsorted, fmap_cons in Hs.
    apply StronglySorted_cons in Hs as [Hall _]. rewrite Forall_fmap in Hall.
    eapply Forall_impl; [exact Hall|]. simpl. lia. }
  unfold get_nodes_for_key. destruct (_ring r) as [|e0 rest0] eqn:Hring; [done|].
  rewrite <-Hring in *. rewrite Hstarts. cbn [mbind result_bind].
  rewrite Hsorted. cbn [walk_starts]. rewrite Hlen.
  destruct (walk_enough fuel r replicas s Hne Hfuel)
    as (out' & seen' & Hw & _ & Hl); [lia|].
  rewrite Hw. cbn [mbind result_bind].
  destruct (Z.leb_spec replicas (Z.of_nat (length out'))); [|lia].
  f_equal.
  rewrite (walk_collect _ _ _ _ _ _ _ _ Hne (walk_acc_nil r) Hw).
  rewrite collect_first_occurrences by (simpl; lia).
  cbn [app length]. rewrite Nat.sub_0_r.
  rewrite (filter_all (λ y, y ∉ []))
    by (apply Forall_forall; intros y _; apply not_elem_of_nil).
  assert (Hs : s < length (ring_ids r)).
  { unfold ring_ids. rewrite length_fmap.
    assert (Hin : s ∈ starts).
    { rewrite <-(sorted_Permutation Z.of_nat starts), Hsorted. left. }
    clear -Hin Hstarts Hpos Hlen. rewrite Hlen in Hstarts.
    revert starts Hstarts Hin.
    induction (seq 0 (Z.to_nat multiprobe)) as [|p ps IH]; intros starts; simpl.
    - intros [= <-]. by intros ?%elem_of_nil.
    - destruct (Nat.eqb_spec (length (_ring r)) 0); [done|].
      destruct (probe_starts r key (length (_ring r)) ps) as [rest'| |]; [|done|done].
      simpl. intros [= <-] [->|Hin]%elem_of_cons; [|by eapply IH].
      by apply Nat.mod_upper_bound. }
  set (ids := ring_ids r) in *.
  assert (Hn : length (_ring r) = length ids)
    by (subst ids; unfold ring_ids; by rewrite length_fmap).
  rewrite Hn in *.
  rewrite <-(take_drop (length ids) (visited ids (length ids) s fuel)).
  rewrite visited_rotation by done.
  rewrite first_occurrences_app, take_app_le; [done|].
  assert (Hdistinct : length (first_occurrences (drop s ids ++ take s ids))
                      = base.size (list_to_set ids : gset string)).
  { rewrite <-(size_list_to_set (C := gset string)) by apply first_occurrences_NoDup.
    f_equal. apply set_eq. intros x.
    rewrite !elem_of_list_to_set, first_occurrences_elem, elem_of_app.
    rewrite <-(take_drop s ids) at 3. rewrite elem_of_app. tauto. }
  rewrite Hdistinct. lia.
Qed.


(** ** Size of the ring, single node, and artifact file names *)

Lemma length_by_key (l : list (Z * Node.t)) (kvs : list (string * Node.t))
    (f : Node.t → Z) :
  NoDup kvs.*1 →
  (∀ e, e ∈ l → Node.id e.2 ∈ kvs.*1) →
  (∀ kv, kv ∈ kvs →
         Z.of_nat (length (filter (λ e : Z * Node.t, Node.id e.2 = kv.1) l)) = f kv.2) →
  Z.of_nat (length l) = foldr Z.add 0%Z ((λ kv, f kv.2) <$> kvs).
Proof.
  clear h64.
  revert l. induction kvs as [|[i n] kvs IH]; intros l Hnd Hin Hcount.
  - destruct l as [|e l]; [done|].
    by destruct (not_elem_of_nil _ (Hin e ltac:(left))).
  - cbn [fmap list_fmap foldr]. csimpl in Hnd. apply NoDup_cons in Hnd as [Hi Hnd].
    assert (Hlen : length l
                   = length (filter (λ e : Z * Node.t, Node.id e.2 = i) l)
                     + length (filter (λ e : Z * Node.t, ¬ Node.id e.2 = i) l)).
    { rewrite <-length_app. by rewrite filter_app_complement. }
    pose proof (Hcount (i, n) ltac:(left)) as Hc. simpl in Hc.
    rewrite Hlen, Nat2Z.inj_add, Hc. simpl. f_equal.
    apply IH; [done| |].
    + intros e [Hne He]%list_elem_of_filter.
      specialize (Hin e He). csimpl in Hin. apply elem_of_cons in Hin as [?|?]; done.
    + intros kv Hkv. rewrite <-(Hcount kv) by (by right).
      do 2 f_equal. rewrite list_filter_filter. apply list_filter_iff.
      intros e. split; [tauto|]. intros He. split; [done|].
      rewrite He. intros Hki. apply Hi. apply list_elem_of_fmap. by exists kv.
Qed.

(** X26. The number of tokens of a ring that satisfies the invariants (the
    ["tokens"] entry of [stats()]) is the sum, over the registered nodes, of
    [virtual_nodes_per_weight * max(1, weight)]. *)
Theorem ring_token_total r :
  ring_inv r →
  Z.of_nat (length (_ring r))
  = foldr Z.add 0%Z ((λ kv, _vn_count r kv.2) <$> map_to_list (_nodes r)).
Proof.
  intros Hinv. apply length_by_key.
  - apply NoDup_fst_map_to_list.
  - intros e He. apply list_elem_of_fmap.
    exists (Node.id e.2, e.2). split; [done|].
    apply elem_of_map_to_list. by apply (inv_dom r Hinv).
  - intros [i n] Hkv%elem_of_map_to_list. by apply (inv_count r Hinv).
Qed.

(** X27. A single node absorbs every key: on a ring that satisfies the
    invariants and whose only registered node is [node_id], [get_node]
    returns [node_id] for every key. *)
Theorem single_node_owns_all r node_id key :
  ring_inv r → dom (_nodes r) = {[node_id]} → get_node r key = Ok (Some node_id).
Proof.
  intros Hinv Hdom.
  assert (Hne : _ring r ≠ []).
  { intros Hnil%(ring_empty_iff r Hinv). unfold size in Hnil.
    apply map_size_empty_iff in Hnil. rewrite Hnil, dom_empty_L in Hdom.
    apply (not_elem_of_empty (C := gset string) node_id). rewrite Hdom.
    by apply elem_of_singleton. }
  destruct (get_node_nonempty r key Hinv Hne) as (e & He & ->).
  do 2 f_equal. apply list_elem_of_lookup_2 in He.
  pose proof (inv_dom r Hinv e He) as Hd. apply elem_of_dom_2 in Hd.
  rewrite Hdom in Hd. by apply elem_of_singleton in Hd.
Qed.

Lemma replace_colon_idem k : replace_colon (replace_colon k) = replace_colon k.
Proof.
  induction k as [|c k IH]; [done|]. cbn [replace_colon]. rewrite IH. f_equal.
  destruct (Ascii.eqb_spec c ":"); [done|].
  by destruct (Ascii.eqb_spec c ":").
Qed.

(** X28. Artifact keys that differ only by [:] against [_] name the same
    file: a host reads, for a key, the file of the key with every [:]
    replaced by [_], so two keys with the same replacement share what is
    stored. *)
Theorem artifact_keys_collide fs h k1 k2 :
  replace_colon k1 = replace_colon k2 →
  path_for h k1 = path_for h k2 ∧
  path_for h (replace_colon k1) = path_for h k1 ∧
  host_get fs h k1 = host_get fs h k2.
Proof.
  intros Heq. unfold host_get, path_for. by rewrite replace_colon_idem, Heq.
Qed.

(** ** The distributed cache *)

Lemma node_set_entry (n : cache.InMemoryCacheNode (V := V)) k v ttl now :
  (1 ≤ cache._capacity n)%Z →
  (cache.set n k v ttl now).2 = cache.Returns () ∧
  cache._capacity (cache.set n k v ttl now).1 = cache._capacity n ∧
  OrderedDict.get k (cache._store (cache.set n k v ttl now).1)
  = Some (cache.expiry now ttl, v).
Proof.
  intros Hcap. rewrite set_store by lia. cbn [fst snd].
  rewrite store_with_store, capacity_with_store. split; [done|]. split; [done|].
  set (d := OrderedDict.pop k (cache._store n)).
  rewrite length_app. cbn [length]. rewrite drop_app_le by lia.
  rewrite od_get_app.
  rewrite (proj2 (od_get_None k _)) by (apply Forall_drop, od_pop_Forall).
  simpl. by rewrite decide_True.
Qed.

Lemma node_get_hit (n : cache.InMemoryCacheNode (V := V)) k e val now :
  OrderedDict.get k (cache._store n) = Some (e, val) → cache.expired e now = false →
  (cache.get n k now).2 = cache.Returns val.
Proof.
  intros Hget Hexp. unfold cache.get, OrderedDict.move_to_end.
  by rewrite Hget, Hexp.
Qed.

Lemma heap_update_eq (h : node_heap) l n : heap_update h l n l = n.
Proof. unfold heap_update. by rewrite decide_True. Qed.

Lemma heap_update_ne (h : node_heap) l n l' : l' ≠ l → heap_update h l n l' = h l'.
Proof. intros Hne. unfold heap_update. by rewrite decide_False. Qed.

(** The loop of [set] over nodes of capacity [>= 1]: every node of the
    list holds the entry, written at one of the times of the loop; the
    other node objects are not touched. *)
Lemma set_loop_spec (h : node_heap) key value ttl nows i nodes :
  (∀ l, l ∈ nodes → (1 ≤ cache._capacity (h l))%Z) →
  (set_loop h key value ttl nows i nodes).2 = cache.Returns () ∧
  (∀ l, cache._capacity ((set_loop h key value ttl nows i nodes).1 l)
        = cache._capacity (h l)) ∧
  (∀ l, l ∈ nodes → ∃ j, i ≤ j < i + length nodes ∧
        OrderedDict.get key (cache._store ((set_loop h key value ttl nows i nodes).1 l))
        = Some (cache.expiry (nows j) ttl, value)) ∧
  (∀ l, l ∉ nodes → (set_loop h key value ttl nows i nodes).1 l = h l).
Proof.
  revert h i. induction nodes as [|l0 nodes IH]; intros h i Hcap.
  - cbn [set_loop fst snd]. split; [done|]. split; [done|].
    split; [by intros l ?%elem_of_nil|done].
  - cbn [set_loop].
    destruct (node_set_entry (h l0) key value ttl (nows i)) as (Ho & Hc & Hg);
      [apply Hcap; left|].
    rewrite Ho. set (h' := heap_update h l0 _).
    assert (Hcap' : ∀ l, cache._capacity (h' l) = cache._capacity (h l)).
    { intros l. subst h'. destruct (decide (l = l0)) as [->|Hne].
      - by rewrite heap_update_eq.
      - by rewrite heap_update_ne. }
    destruct (IH h' (S i)) as (Hret & Hcaps & Hent & Hframe).
    { intros l Hl. rewrite Hcap'. apply Hcap. by right. }
    split; [done|]. split; [intros l; by rewrite Hcaps|]. split.
    + intros l Hl. destruct (decide (l ∈ nodes)) as [Hin|Hnin].
      * destruct (Hent l Hin) as (j & Hj & Hget). exists j.
        split; [cbn [length]; lia|done].
      * apply elem_of_cons in Hl as [->|?]; [|done].
        exists i. split; [cbn [length]; lia|].
        rewrite (Hframe l0 Hnin). subst h'. by rewrite heap_update_eq.
    + intros l Hl. apply not_elem_of_cons in Hl as [Hne Hnin].
      rewrite (Hframe l Hnin). subst h'. by rewrite heap_update_ne.
Qed.

(** On a cache whose node map names the ids of a ring that satisfies the
    invariants, with [1 <= replication <= size()], [_placement] returns (one
    pass over the ring is enough fuel) [replication] node objects of the
    node map. *)
Lemma cache_placement_full fuel c key :
  ring_inv (cache_ring c) → dom (cache_nodes c) = dom (_nodes (cache_ring c)) →
  length (_ring (cache_ring c)) ≤ fuel →
  (1 ≤ cache_replication c ≤ Z.of_nat (size (cache_ring c)))%Z →
  ∃ nodes, cache_placement fuel c key = Ok nodes ∧
           Z.of_nat (length nodes) = cache_replication c ∧
           ∀ l, l ∈ nodes → ∃ nid, cache_nodes c !! nid = Some l.
Proof.
  intros Hinv Hsync Hfuel Hrep.
  destruct (get_nodes_for_key_enough_nodes fuel (cache_ring c) key
              (cache_replication c) 2 Hinv Hfuel ltac:(lia) Hrep)
    as (out & Hout & _ & Hlen & Hdom).
  unfold cache_placement. rewrite Hout. cbn [mbind result_bind].
  assert (Hall : Forall (λ nid, is_Some (cache_nodes c !! nid)) out).
  { apply Forall_forall. intros x Hx. apply elem_of_dom. rewrite Hsync. by apply Hdom. }
  rewrite (filter_all _ _ Hall).
  destruct (omap_all_Some (λ nid, cache_nodes c !! nid) out Hall) as [_ Hl].
  eexists. split; [done|]. split; [by rewrite Hl|].
  intros l (nid & _ & Hnid)%list_elem_of_omap. by exists nid.
Qed.

(** The loop of [set] over nodes of capacity [>= 1]: a node object holds the
    entry written by the last call made on it. *)
Lemma set_loop_last (h : node_heap) key value ttl nows i nodes j l :
  (∀ l, l ∈ nodes → (1 ≤ cache._capacity (h l))%Z) →
  nodes !! j = Some l → (∀ j', j < j' → nodes !! j' ≠ Some l) →
  OrderedDict.get key (cache._store ((set_loop h key value ttl nows i nodes).1 l))
  = Some (cache.expiry (nows (i + j)) ttl, value).
Proof.
  revert h i j. induction nodes as [|l0 nodes IH]; intros h i j Hcap Hj Hlast; [done|].
  cbn [set_loop].
  destruct (node_set_entry (h l0) key value ttl (nows i)) as (Ho & Hc & Hg);
    [apply Hcap; left|].
  rewrite Ho. set (h' := heap_update h l0 _).
  assert (Hcap' : ∀ l, l ∈ nodes → (1 ≤ cache._capacity (h' l))%Z).
  { intros l' Hl'. subst h'. destruct (decide (l' = l0)) as [->|Hne].
    - rewrite heap_update_eq, Hc. apply Hcap. by left.
    - rewrite heap_update_ne by done. apply Hcap. by right. }
  destruct j as [|j].
  - injection Hj as ->.
    assert (Hnin : l ∉ nodes).
    { intros (j' & Hj')%list_elem_of_lookup. by apply (Hlast (S j')); [lia|]. }
    destruct (set_loop_spec h' key value ttl nows (S i) nodes Hcap')
      as (_ & _ & _ & Hframe).
    rewrite (Hframe l Hnin). subst h'. rewrite heap_update_eq.
    by rewrite Nat.add_0_r.
  - replace (i + S j) with (S i + j) by lia. apply IH; [done|done|].
    intros j' Hj'. apply (Hlast (S j')). lia.
Qed.

(** X29. Write then read on the cache: on a cache whose node map names the
    ids of a ring that satisfies the invariants, with
    [1 <= replication <= size()] and node objects of capacity [>= 1],
    [set(key, v)] with a value that is not [None] returns normally (one pass
    over the ring is enough fuel for the placement), and a [get(key)] that
    follows returns [v], provided no entry written by the [set] has expired
    at the time of the first read. *)
Theorem cache_set_then_get fuel c (h : node_heap) key v ttl nows nows' :
  ring_inv (cache_ring c) → dom (cache_nodes c) = dom (_nodes (cache_ring c)) →
  length (_ring (cache_ring c)) ≤ fuel →
  (1 ≤ cache_replication c ≤ Z.of_nat (size (cache_ring c)))%Z →
  (∀ nid l, cache_nodes c !! nid = Some l → (1 ≤ cache._capacity (h l))%Z) →
  (∀ i, (Z.of_nat i < cache_replication c)%Z →
        cache.expired (cache.expiry (nows i) ttl) (nows' 0) = false) →
  ∃ h1 h2, cache_set fuel c h key (Some v) ttl nows = Ok (h1, cache.Returns ()) ∧
           cache_get fuel c h1 key nows' = Ok (h2, cache.Returns (Some v)).
Proof.
  intros Hinv Hsync Hfuel Hrep Hcap Hexp.
  destruct (cache_placement_full fuel c key Hinv Hsync Hfuel Hrep)
    as (nodes & Hp & Hlen & Hobj).
  assert (Hcap' : ∀ l, l ∈ nodes → (1 ≤ cache._capacity (h l))%Z).
  { intros l [nid Hnid]%Hobj. by apply (Hcap nid). }
  unfold cache_set, cache_get. rewrite Hp.
  cbn [mbind result_bind].
  destruct (set_loop_spec h key (Some v) ttl nows 0 nodes Hcap')
    as (Hret & _ & Hent & _).
  destruct (set_loop h key (Some v) ttl nows 0 nodes) as [h1 o1] eqn:Hset.
  cbn [fst snd] in *. subst o1. exists h1.
  destruct nodes as [|l0 nodes']; [cbn [length] in Hlen; lia|].
  destruct (Hent l0 ltac:(left)) as (j & Hj & Hget).
  cbn [get_loop].
  rewrite (node_get_hit (h1 l0) key _ _ (nows' 0) Hget) by (apply Hexp; lia).
  eauto.
Qed.

(** X30. Fan-out of a write: on a cache whose node map names the ids of a
    ring that satisfies the invariants, with [1 <= replication <= size()]
    and node objects of capacity [>= 1], [set] returns normally, the
    placement has [replication] node objects, each of them holds the key
    with the value and the expiry of its own write (the call of index [j] of
    the loop reads the clock value [nows j]; an object placed twice keeps
    the later write), and no other node object is touched. *)
Theorem cache_set_fan_out fuel c (h : node_heap) key value ttl nows :
  ring_inv (cache_ring c) → dom (cache_nodes c) = dom (_nodes (cache_ring c)) →
  length (_ring (cache_ring c)) ≤ fuel →
  (1 ≤ cache_replication c ≤ Z.of_nat (size (cache_ring c)))%Z →
  (∀ nid l, cache_nodes c !! nid = Some l → (1 ≤ cache._capacity (h l))%Z) →
  ∃ nodes h1,
    cache_placement fuel c key = Ok nodes ∧
    Z.of_nat (length nodes) = cache_replication c ∧
    cache_set fuel c h key value ttl nows = Ok (h1, cache.Returns ()) ∧
    (∀ j l, nodes !! j = Some l → (∀ j', j < j' → nodes !! j' ≠ Some l) →
            OrderedDict.get key (cache._store (h1 l))
            = Some (cache.expiry (nows j) ttl, value)) ∧
    (∀ l, l ∉ nodes → h1 l = h l).
Proof.
  intros Hinv Hsync Hfuel Hrep Hcap.
  destruct (cache_placement_full fuel c key Hinv Hsync Hfuel Hrep)
    as (nodes & Hp & Hlen & Hobj).
  assert (Hcap' : ∀ l, l ∈ nodes → (1 ≤ cache._capacity (h l))%Z).
  { intros l [nid Hnid]%Hobj. by apply (Hcap nid). }
  exists nodes. unfold cache_set. rewrite Hp. cbn [mbind result_bind].
  destruct (set_loop_spec h key value ttl nows 0 nodes Hcap')
    as (Hret & _ & _ & Hframe).
  pose proof (λ j l, set_loop_last h key value ttl nows 0 nodes j l Hcap') as Hlast.
  destruct (set_loop h key value ttl nows 0 nodes) as [h1 o1] eqn:Hset.
  cbn [fst snd] in *. subst o1. exists h1. split; [done|]. split; [done|].
  split; [done|]. split; [|done].
  intros j l Hj Hl. apply (Hlast j l Hj Hl).
Qed.


End model.

(** * The theorems on concrete rings *)

Lemma get_node_owner_witness :
  ring_inv (ring_A fnv1a_64) ∧
  get_node fnv1a_64 (ring_A fnv1a_64) "k1" = Ok (Some "node-A").
Proof.
  split; [apply ring_A_inv|].
  destruct (get_node_owner fnv1a_64 (ring_A fnv1a_64) "k1" (ring_A_inv fnv1a_64))
    as [_ Hown].
  destruct Hown as (_ & _ & e & He & ->); [by vm_compute|].
  vm_compute in He. by injection He as <-.
Defined.

Lemma get_nodes_for_key_diverges_witness :
  ring_inv (ring_A fnv1a_64) ∧ _ring (ring_A fnv1a_64) ≠ [] ∧
  (Z.of_nat (size (ring_A fnv1a_64)) < 2)%Z ∧
  get_nodes_for_key fnv1a_64 1000 (ring_A fnv1a_64) "k1" 2 1 = OutOfFuel.
Proof.
  split; [apply ring_A_inv|]. split; [by vm_compute|]. split; [by vm_compute|].
  apply get_nodes_for_key_diverges;
    [apply ring_A_inv|by vm_compute|lia|by vm_compute].
Defined.

Example get_nodes_for_key_two_replicas :
  get_nodes_for_key fnv1a_64 2 (ring_AB fnv1a_64) "embedding-999" 2 2
  = Ok ["node-A"; "node-B"].
Proof. by vm_compute. Qed.

Lemma plan_moved_correct_witness :
  ring_inv (ring_A fnv1a_64) ∧ ring_inv (ring_AB fnv1a_64) ∧
  ∃ plan, plan_moved fnv1a_64 ["k1"; "k2"] (ring_A fnv1a_64) (ring_AB fnv1a_64)
          = Ok plan.
Proof.
  split; [apply ring_A_inv|]. split; [apply ring_AB_inv|].
  destruct (plan_moved_correct fnv1a_64 ["k1"; "k2"] (ring_A fnv1a_64)
              (ring_AB fnv1a_64) (ring_A_inv _) (ring_AB_inv _)) as (plan & Hplan & _).
  by exists plan.
Defined.

Lemma same_calls_same_layout_witness :
  dump_tokens (add_nodes fnv1a_64 (init 2 42) [("node-A", 1%Z, None)]).1
  = dump_tokens (add_nodes fnv1a_64 (init 2 42) [("node-A", 1%Z, Some "eu-west")]).1.
Proof.
  apply (same_calls_same_layout fnv1a_64 2 42
           [("node-A", 1%Z, None)] [("node-A", 1%Z, Some "eu-west")]).
  reflexivity.
Defined.


Lemma remove_node_spec_witness :
  ring_inv (ring_AB fnv1a_64) ∧
  is_Some (_nodes (ring_AB fnv1a_64) !! "node-A") ∧
  ∀ key, get_node fnv1a_64 (remove_node (ring_AB fnv1a_64) "node-A") key
         ≠ Ok (Some "node-A").
Proof.
  split; [apply ring_AB_inv|].
  assert (Hin : is_Some (_nodes (ring_AB fnv1a_64) !! "node-A"))
    by (vm_compute; eexists; reflexivity).
  split; [done|].
  apply (remove_node_spec fnv1a_64 (ring_AB fnv1a_64) "node-A" (ring_AB_inv _)).
  exact Hin.
Defined.


Lemma execute_distribute_raises_witness :
  placement_with_ring fnv1a_64 1 (dist_A fnv1a_64) "k1" (ring_A fnv1a_64)
    = Ok [Some host_A] ∧
  read_old fs_A "k1" [Some host_A] = Some "blob" ∧
  execute fnv1a_64 1 (dist_A fnv1a_64) fs_A [("k1", (Some "node-A", None))]
    (ring_A fnv1a_64) = Raise AttributeError.
Proof.
  assert (Hp : placement_with_ring fnv1a_64 1 (dist_A fnv1a_64) "k1" (ring_A fnv1a_64)
               = Ok [Some host_A]) by (by vm_compute).
  assert (Hr : read_old fs_A "k1" [Some host_A] = Some "blob") by (by vm_compute).
  split; [done|]. split; [done|].
  exact (execute_distribute_raises fnv1a_64 1 (dist_A fnv1a_64) fs_A "k1"
           (Some "node-A", None) [] (ring_A fnv1a_64) [Some host_A] "blob" Hp Hr).
Defined.

(** The claim C4 as first stated (an error if and only if the id is already
    in the ring, and then an unchanged ring) fails on the fresh ring at the
    id ['\ud800']: the id is not in the ring, the call raises
    [UnicodeEncodeError], and the ring it leaves has the id registered with
    no token. *)
Lemma add_node_unencodable_id_not_atomic :
  _nodes (init 1 0) !! str.lone_surrogate = None ∧
  (add_node_any_str fnv1a_64 (init 1 0) str.lone_surrogate 1 None).2
  = Raise UnicodeEncodeError ∧
  _nodes (add_node_any_str fnv1a_64 (init 1 0) str.lone_surrogate 1 None).1
    !! str.lone_surrogate = Some (Node.mk str.lone_surrogate 1 None None) ∧
  _ring (add_node_any_str fnv1a_64 (init 1 0) str.lone_surrogate 1 None).1 = [] ∧
  (add_node_any_str fnv1a_64 (init 1 0) str.lone_surrogate 1 None).1 ≠ init 1 0.
Proof.
  split; [done|]. split; [by vm_compute|]. split; [by vm_compute|].
  split; [by vm_compute|].
  intros Heq. apply (f_equal (λ r, _nodes r !! str.lone_surrogate)) in Heq.
  by vm_compute in Heq.
Qed.

Lemma add_node_error_cases_witness :
  (1 ≤ _vn_per_weight (ring_A fnv1a_64))%Z ∧
  ((add_node_any_str fnv1a_64 (ring_A fnv1a_64) "node-A" 1 None).2 = Raise ValueError
   ↔ is_Some (_nodes (ring_A fnv1a_64) !! "node-A")) ∧
  ((add_node_any_str fnv1a_64 (ring_A fnv1a_64) "node-B" 1 None).2 = Ok ()
   ↔ _nodes (ring_A fnv1a_64) !! "node-B" = None
     ∧ str.has_surrogate "node-B" = false).
Proof.
  assert (Hv : (1 ≤ _vn_per_weight (ring_A fnv1a_64))%Z) by (by vm_compute).
  split; [done|]. split.
  - apply (add_node_error_cases fnv1a_64 (ring_A fnv1a_64) "node-A" 1 None Hv).
  - apply (add_node_error_cases fnv1a_64 (ring_A fnv1a_64) "node-B" 1 None Hv).
Defined.

(** * The further properties on concrete inputs *)


Lemma remove_node_keeps_other_owners_witness :
  ring_inv (ring_AB fnv1a_64) ∧
  get_node fnv1a_64 (ring_AB fnv1a_64) "embedding-999" = Ok (Some "node-A") ∧
  get_node fnv1a_64 (remove_node (ring_AB fnv1a_64) "node-B") "embedding-999"
  = Ok (Some "node-A").
Proof.
  assert (Hget : get_node fnv1a_64 (ring_AB fnv1a_64) "embedding-999"
                 = Ok (Some "node-A")) by (by vm_compute).
  split; [apply ring_AB_inv|]. split; [done|].
  apply (remove_node_keeps_other_owners fnv1a_64 (ring_AB fnv1a_64) "node-B"
           "embedding-999" "node-A" (ring_AB_inv _) Hget).
  discriminate.
Defined.

Lemma add_then_remove_restores_witness :
  ring_inv (ring_A fnv1a_64) ∧ _nodes (ring_A fnv1a_64) !! "node-B" = None ∧
  remove_node (add_node fnv1a_64 (ring_A fnv1a_64) "node-B" 3 None).1 "node-B"
  = ring_A fnv1a_64.
Proof.
  assert (Hnone : _nodes (ring_A fnv1a_64) !! "node-B" = None) by (by vm_compute).
  split; [apply ring_A_inv|]. split; [done|].
  apply (add_then_remove_restores fnv1a_64 (ring_A fnv1a_64) "node-B" 3 None
           (ring_A_inv _) Hnone).
Defined.

Lemma get_node_registered_witness :
  ring_inv (ring_A fnv1a_64) ∧
  (get_node fnv1a_64 (ring_A fnv1a_64) "k1" = Ok None ↔ size (ring_A fnv1a_64) = 0).
Proof.
  split; [apply ring_A_inv|].
  apply (get_node_registered fnv1a_64 (ring_A fnv1a_64) "k1" (ring_A_inv _)).
Defined.

Lemma remove_node_token_count_witness :
  ring_inv (ring_AB fnv1a_64) ∧
  _nodes (ring_AB fnv1a_64) !! "node-A" = Some (Node.mk "node-A" 1 None None) ∧
  S (size (remove_node (ring_AB fnv1a_64) "node-A")) = size (ring_AB fnv1a_64).
Proof.
  assert (Hn : _nodes (ring_AB fnv1a_64) !! "node-A"
               = Some (Node.mk "node-A" 1 None None)) by (by vm_compute).
  split; [apply ring_AB_inv|]. split; [done|].
  apply (remove_node_token_count (ring_AB fnv1a_64) "node-A" _
           (ring_AB_inv _) Hn).
Defined.

Lemma get_nodes_for_key_primary_witness :
  ring_inv (ring_AB fnv1a_64) ∧
  ∃ x rest, get_nodes_for_key fnv1a_64 2 (ring_AB fnv1a_64) "embedding-999" 2 1
            = Ok (x :: rest)
            ∧ get_node fnv1a_64 (ring_AB fnv1a_64) ("embedding-999" +:+ "|0")
              = Ok (Some x).
Proof.
  split; [apply ring_AB_inv|].
  apply (get_nodes_for_key_primary fnv1a_64 2 (ring_AB fnv1a_64) "embedding-999" 2
           (ring_AB_inv _)); by vm_compute.
Defined.

Lemma get_nodes_for_key_empty_result_witness :
  ring_inv (ring_AB fnv1a_64) ∧
  get_nodes_for_key fnv1a_64 0 (ring_AB fnv1a_64) "k1" 2 0 = Ok [].
Proof.
  split; [apply ring_AB_inv|].
  apply (get_nodes_for_key_empty_result fnv1a_64 0 (ring_AB fnv1a_64) "k1" 2 0
           (ring_AB_inv _)).
  right. left. lia.
Defined.

Lemma insert_token_before_equals_witness :
  ring_inv (ring_A fnv1a_64) ∧
  _ring (_insert_token (ring_A fnv1a_64) 5 (Node.mk "node-B" 1 None None))
    !! bisect.bisect_left (_sorted_tokens (ring_A fnv1a_64)) 5
  = Some (5%Z, Node.mk "node-B" 1 None None).
Proof.
  split; [apply ring_A_inv|].
  apply (insert_token_before_equals (ring_A fnv1a_64) 5
           (Node.mk "node-B" 1 None None) (ring_A_inv _)).
Defined.

Lemma plan_after_join_witness :
  ring_inv (ring_A fnv1a_64) ∧ _nodes (ring_A fnv1a_64) !! "node-B" = None ∧
  ∃ plan, plan_moved fnv1a_64 ["k1"; "k2"] (ring_A fnv1a_64)
            (add_node fnv1a_64 (ring_A fnv1a_64) "node-B" 1 None).1 = Ok plan.
Proof.
  assert (Hnone : _nodes (ring_A fnv1a_64) !! "node-B" = None) by (by vm_compute).
  split; [apply ring_A_inv|]. split; [done|].
  destruct (plan_after_join fnv1a_64 ["k1"; "k2"] (ring_A fnv1a_64) "node-B" 1 None
              (ring_A_inv _) Hnone) as (plan & Hplan & _).
  by exists plan.
Defined.

Lemma plan_after_leave_witness :
  ring_inv (ring_AB fnv1a_64) ∧
  ∃ plan, plan_moved fnv1a_64 ["k1"; "k2"] (ring_AB fnv1a_64)
            (remove_node (ring_AB fnv1a_64) "node-B") = Ok plan.
Proof.
  split; [apply ring_AB_inv|].
  destruct (plan_after_leave fnv1a_64 ["k1"; "k2"] (ring_AB fnv1a_64) "node-B"
              (ring_AB_inv _)) as (plan & Hplan & _).
  by exists plan.
Defined.

Lemma plan_moved_same_ring_witness :
  ring_inv (ring_AB fnv1a_64) ∧
  plan_moved fnv1a_64 ["k1"; "k2"] (ring_AB fnv1a_64) (ring_AB fnv1a_64) = Ok ∅.
Proof.
  split; [apply ring_AB_inv|].
  apply (plan_moved_same_ring fnv1a_64 ["k1"; "k2"] (ring_AB fnv1a_64) (ring_AB_inv _)).
Defined.

Lemma stats_after_join_witness :
  ring_inv (ring_A fnv1a_64) ∧ _nodes (ring_A fnv1a_64) !! "node-B" = None ∧
  ∃ plan, plan_moved fnv1a_64 ["k1"; "k2"] (ring_A fnv1a_64)
            (add_node fnv1a_64 (ring_A fnv1a_64) "node-B" 1 None).1 = Ok plan ∧
          stats_by_from plan !! "node-B" = None.
Proof.
  assert (Hnone : _nodes (ring_A fnv1a_64) !! "node-B" = None) by (by vm_compute).
  split; [apply ring_A_inv|]. split; [done|].
  destruct (stats_after_join fnv1a_64 ["k1"; "k2"] (ring_A fnv1a_64) "node-B" 1 None
              (ring_A_inv _) Hnone) as (plan & Hplan & _ & Hfrom).
  exists plan. split; [exact Hplan|exact Hfrom].
Defined.

Lemma attach_host_duplicate_witness :
  is_Some (_nodes (ring (dist_A fnv1a_64)) !! "node-A") ∧
  (attach_host fnv1a_64 (dist_A fnv1a_64) "node-A" (mkHost "node-A" "/data/new") 1).2
  = Raise ValueError ∧
  _hosts (attach_host fnv1a_64 (dist_A fnv1a_64) "node-A"
            (mkHost "node-A" "/data/new") 1).1 !! "node-A"
  = Some (mkHost "node-A" "/data/new").
Proof.
  assert (Hin : is_Some (_nodes (ring (dist_A fnv1a_64)) !! "node-A"))
    by (vm_compute; eexists; reflexivity).
  split; [done|].
  destruct (attach_host_duplicate fnv1a_64 (dist_A fnv1a_64) "node-A"
              (mkHost "node-A" "/data/new") 1 Hin) as (Ho & _ & Hh & _).
  by split.
Defined.

Lemma dist_A_in_sync : hosts_in_sync (dist_A fnv1a_64).
Proof.
  unfold hosts_in_sync, dist_A, ring_A. cbn [_hosts ring].
  rewrite add_node_dom. cbn [init _nodes].
  rewrite dom_singleton_L, dom_empty_L. by rewrite union_empty_r_L.
Qed.


Lemma placement_full_witness :
  hosts_in_sync (dist_A fnv1a_64) ∧ ring_inv (ring (dist_A fnv1a_64)) ∧
  ∃ hs, placement fnv1a_64 1 (dist_A fnv1a_64) "k1" = Ok hs
        ∧ Z.of_nat (length hs) = 1%Z.
Proof.
  split; [apply dist_A_in_sync|]. split; [apply ring_A_inv|].
  destruct (placement_full fnv1a_64 1 (dist_A fnv1a_64) "k1" dist_A_in_sync
              (ring_A_inv _)) as (hs & Hp & Hl & _); [by vm_compute|by vm_compute|].
  by exists hs.
Defined.



Lemma set_keeps_most_recent_witness :
  (0 ≤ cache._capacity node_ab)%Z ∧
  (cache._store (cache.set node_ab "c" (Some 3%Z) 0 (Some 5%Z)).1).*1 = ["b"; "c"].
Proof.
  split; [by vm_compute|].
  destruct (set_keeps_most_recent node_ab "c" (Some 3%Z) 0 (Some 5%Z)) as [-> _];
    [by vm_compute|].
  by vm_compute.
Defined.

Lemma set_negative_capacity_witness :
  (cache._capacity (node_empty (-1)) < 0)%Z ∧
  (cache.set (node_empty (-1)) "a" (Some 1%Z) 600 (Some 5%Z)).2 = cache.RaisesKeyError.
Proof.
  split; [by vm_compute|].
  by rewrite (set_negative_capacity (node_empty (-1)) "a" (Some 1%Z) 600 (Some 5%Z))
    by (by vm_compute).
Defined.

Lemma set_then_get_witness :
  (1 ≤ cache._capacity (node_empty 1))%Z ∧
  cache.expired (cache.expiry (Some 5%Z) 600) (Some 100%Z) = false ∧
  (cache.get (cache.set (node_empty 1) "a" (Some 1%Z) 600 (Some 5%Z)).1 "a"
     (Some 100%Z)).2 = cache.Returns (Some 1%Z).
Proof.
  split; [by vm_compute|]. split; [by vm_compute|].
  apply (set_then_get (node_empty 1) "a" (Some 1%Z) 600 (Some 5%Z) (Some 100%Z));
    by vm_compute.
Defined.

Lemma get_protects_from_eviction_witness :
  OrderedDict.get "a"
    (cache._store (cache.set (cache.get node_ab "a" (Some 50%Z)).1 "c" (Some 3%Z) 0
                     (Some 60%Z)).1)
  = Some (Some 100%Z, Some 1%Z).
Proof.
  apply (get_protects_from_eviction node_ab "a" (Some 100%Z) (Some 1%Z) (Some 50%Z)
           "c" (Some 3%Z) 0 (Some 60%Z)).
  - refine (bool_decide_unpack _ _). by vm_compute.
  - by vm_compute.
  - by vm_compute.
  - by vm_compute.
  - by vm_compute.
  - refine (bool_decide_unpack _ _). by vm_compute.
Defined.

Lemma store_keys_distinct_witness :
  NoDup (cache._store node_ab).*1 ∧
  NoDup (cache._store (cache.set node_ab "a" (Some 9%Z) 600 (Some 5%Z)).1).*1.
Proof.
  assert (Hnd : NoDup (cache._store node_ab).*1)
    by (refine (bool_decide_unpack _ _); by vm_compute).
  split; [done|].
  apply (store_keys_distinct node_ab "a" (Some 9%Z) 600 (Some 5%Z) Hnd).
Defined.

Lemma get_nodes_for_key_clockwise_witness :
  ring_inv (ring_AB fnv1a_64) ∧
  ∃ s, get_nodes_for_key fnv1a_64 2 (ring_AB fnv1a_64) "embedding-999" 2 2
       = Ok (take 2 (first_occurrences
                       (drop s (ring_ids (ring_AB fnv1a_64))
                        ++ take s (ring_ids (ring_AB fnv1a_64))))).
Proof.
  split; [apply ring_AB_inv|].
  destruct (get_nodes_for_key_clockwise fnv1a_64 2 (ring_AB fnv1a_64) "embedding-999"
              2 2 (ring_AB_inv _)) as (starts & s & rest & _ & _ & _ & Hout);
    [by vm_compute|lia|by vm_compute|].
  by exists s.
Defined.

Lemma ring_token_total_witness :
  ring_inv (ring_AB fnv1a_64) ∧ length (_ring (ring_AB fnv1a_64)) = 2.
Proof.
  split; [apply ring_AB_inv|].
  apply Nat2Z.inj.
  rewrite (ring_token_total (ring_AB fnv1a_64) (ring_AB_inv _)).
  by vm_compute.
Defined.

Lemma single_node_owns_all_witness :
  ring_inv (ring_A fnv1a_64) ∧ dom (_nodes (ring_A fnv1a_64)) = {["node-A"]} ∧
  get_node fnv1a_64 (ring_A fnv1a_64) "artifact:lora:en:1" = Ok (Some "node-A").
Proof.
  assert (Hdom : dom (_nodes (ring_A fnv1a_64)) = {["node-A"]}).
  { unfold ring_A. rewrite add_node_dom. cbn [init _nodes].
    by rewrite dom_empty_L, union_empty_r_L. }
  split; [apply ring_A_inv|]. split; [done|].
  apply (single_node_owns_all fnv1a_64 (ring_A fnv1a_64) "node-A" _ (ring_A_inv _) Hdom).
Defined.

Lemma artifact_keys_collide_witness :
  replace_colon "lora:en" = replace_colon "lora_en" ∧
  path_for host_A "lora:en" = path_for host_A "lora_en".
Proof.
  split; [done|].
  apply (artifact_keys_collide ∅ host_A "lora:en" "lora_en"). done.
Defined.

Lemma cache_set_then_get_witness :
  ring_inv (cache_ring (cache_A fnv1a_64)) ∧
  ∃ h1 h2,
    cache_set fnv1a_64 1 (cache_A fnv1a_64) (heap_A (V := Z)) "k1" (Some 7%Z) 600
      (λ _, Some 10%Z) = Ok (h1, cache.Returns ()) ∧
    cache_get fnv1a_64 1 (cache_A fnv1a_64) h1 "k1" (λ _, Some 20%Z)
    = Ok (h2, cache.Returns (Some 7%Z)).
Proof.
  split; [apply ring_A_inv|].
  apply (cache_set_then_get (cache_float := example_float) fnv1a_64 1
           (cache_A fnv1a_64) heap_A "k1" 7%Z 600 (λ _, Some 10%Z) (λ _, Some 20%Z)
           (ring_A_inv _)).
  - refine (bool_decide_unpack _ _). by vm_compute.
  - by vm_compute.
  - by vm_compute.
  - intros nid l _. by vm_compute.
  - intros i _. by vm_compute.
Defined.

Lemma cache_set_fan_out_witness :
  ring_inv (cache_ring (cache_A fnv1a_64)) ∧
  ∃ h1, cache_set fnv1a_64 1 (cache_A fnv1a_64) (heap_A (V := Z)) "k1" (Some 7%Z) 600
          (λ _, Some 10%Z) = Ok (h1, cache.Returns ()) ∧
        OrderedDict.get "k1" (cache._store (h1 0)) = Some (Some 610%Z, Some 7%Z) ∧
        h1 1 = heap_A 1.
Proof.
  split; [apply ring_A_inv|].
  destruct (cache_set_fan_out (cache_float := example_float) fnv1a_64 1
              (cache_A fnv1a_64) heap_A "k1" (Some 7%Z) 600 (λ _, Some 10%Z)
              (ring_A_inv _))
    as (nodes & h1 & Hp & _ & Hset & Hent & Hframe).
  - refine (bool_decide_unpack _ _). by vm_compute.
  - by vm_compute.
  - by vm_compute.
  - intros nid l _. by vm_compute.
  - assert (Hn : nodes = [0]) by (vm_compute in Hp; by injection Hp as <-).
    subst nodes. exists h1. split; [done|]. split.
    + apply (Hent 0 0); [done|]. intros [|j'] ?; [lia|done].
    + apply Hframe. refine (bool_decide_unpack _ _). by vm_compute.
Defined.
